(** * Self scaling hash tables (services/shared/common/hash.c)

    A shallow embedding of the PowerVR services hash table and the
    properties of its public operations.

    Representation choices, all visible in the definitions below:
    - [IMG_UINT32] values are integers in [Z]; every C operation that can
      leave the range is followed by [wrap32].
    - a key is the sequence of [uintptr_t] words of the bucket's [k[]]
      array; key sizes are whole numbers of words (HASH_Func_Default
      asserts it).
    - a chain (a bucket and the buckets reached through [pNext]) is a list
      of buckets, head first; the bucket table is the list of its chains,
      so a NULL slot is the empty chain.
    - the allocator is an oracle: every operation that calls OSAllocMem
      takes the outcome of that call as a boolean.
    - BUG()/abort() and the undefined behaviours of C (NULL dereference,
      read outside the table, division by zero) are results of their own.
    - PVR_DPF logging, OSDumpStack and PVR_ASSERT (compiled out of release
      builds) have no effect on the table and are left out. *)

From stdpp Require Import base numbers list gmap.

Local Open Scope Z_scope.

(** ** Machine integers *)

Definition wrap32 (x : Z) : Z := x mod 2 ^ 32.

(** [ATOMIC_T] holds an [int]. *)
Definition wrap_int (x : Z) : Z := (x + 2 ^ 31) mod 2 ^ 32 - 2 ^ 31.

(** [sizeof(uintptr_t)] of the 64-bit build. *)
Definition sizeof_uintptr_t : Z := 8.

Definition BUCKET_SIG : Z := 0xBEA57FED.
Definition BUCKET_FREE : Z := 0xBCE7DEAD.

(** Modelled from the spec: [PVRSRV_OK] is declared in pvrsrv_error.h, which
    is not part of the sources at hand; it is the success status, the zero
    of the [PVRSRV_ERROR] enumeration. *)
Definition PVRSRV_ERROR : Type := Z.
Definition PVRSRV_OK : PVRSRV_ERROR := 0.

Definition PRIVATE_MAX (a b : Z) : Z := if a >? b then a else b.

(** ** Outcomes of a call *)

Inductive result (A : Type) : Type :=
| Ok (a : A)
| Fatal
| Undefined.

Arguments Ok {A} a.
Arguments Fatal {A}.
Arguments Undefined {A}.

Definition bind {A B : Type} (m : result A) (f : A -> result B) : result B :=
  match m with
  | Ok a => f a
  | Fatal => Fatal
  | Undefined => Undefined
  end.

Notation "x <- m ;; f" := (bind m (fun x => f))
  (at level 100, m at next level, right associativity).

(** ** Data model *)

Definition HASH_KEY : Type := list Z.

Record BUCKET : Type := mkBUCKET {
  ui32Sig : Z;
  v : Z;
  k : HASH_KEY
}.

Definition HASH_FUNC : Type := Z -> HASH_KEY -> Z -> Z.
Definition HASH_KEY_COMP : Type := Z -> HASH_KEY -> HASH_KEY -> bool.

Record HASH_TABLE : Type := mkHASH_TABLE {
  uSize : Z;
  uCount : Z;
  uMinimumSize : Z;
  uKeySize : Z;
  pfnHashFunc : HASH_FUNC;
  pfnKeyComp : HASH_KEY_COMP;
  ppBucketTable : list (list BUCKET);
  hRefCount : Z
}.

Definition set_uSize (pHash : HASH_TABLE) (n : Z) : HASH_TABLE :=
  mkHASH_TABLE n (uCount pHash) (uMinimumSize pHash) (uKeySize pHash)
    (pfnHashFunc pHash) (pfnKeyComp pHash) (ppBucketTable pHash) (hRefCount pHash).

Definition set_uCount (pHash : HASH_TABLE) (n : Z) : HASH_TABLE :=
  mkHASH_TABLE (uSize pHash) n (uMinimumSize pHash) (uKeySize pHash)
    (pfnHashFunc pHash) (pfnKeyComp pHash) (ppBucketTable pHash) (hRefCount pHash).

Definition set_ppBucketTable (pHash : HASH_TABLE) (tbl : list (list BUCKET)) : HASH_TABLE :=
  mkHASH_TABLE (uSize pHash) (uCount pHash) (uMinimumSize pHash) (uKeySize pHash)
    (pfnHashFunc pHash) (pfnKeyComp pHash) tbl (hRefCount pHash).

Definition set_hRefCount (pHash : HASH_TABLE) (n : Z) : HASH_TABLE :=
  mkHASH_TABLE (uSize pHash) (uCount pHash) (uMinimumSize pHash) (uKeySize pHash)
    (pfnHashFunc pHash) (pfnKeyComp pHash) (ppBucketTable pHash) n.

(** Number of words of a key of [uKeySize] bytes. *)
Definition uKeyLen (uKeySize : Z) : nat := Z.to_nat (wrap32 (uKeySize / sizeof_uintptr_t)).

(** [OSCachedMemCopy(pBucket->k, pKey, uKeySize)]. *)
Definition OSCachedMemCopy (pKey : HASH_KEY) (uKeySize : Z) : HASH_KEY :=
  take (uKeyLen uKeySize) pKey.

(** Every live bucket of a table, slot by slot and chain by chain. *)
Definition entries (pHash : HASH_TABLE) : list BUCKET := concat (ppBucketTable pHash).

(** ** Reentrancy guard *)

Definition _inc_ref (pHash : HASH_TABLE) : HASH_TABLE :=
  set_hRefCount pHash (wrap_int (hRefCount pHash + 1)).

Definition _dec_ref (pHash : HASH_TABLE) : result HASH_TABLE :=
  let iRef := hRefCount pHash in
  let pHash := set_hRefCount pHash (wrap_int (iRef - 1)) in
  if iRef =? 1 then Ok pHash else Fatal.

(** ** Default strategy *)

Definition hash_part (w : Z) : Z :=
  let uHashPart := wrap32 w in
  let uHashPart := wrap32 (uHashPart + Z.shiftl uHashPart 12) in
  let uHashPart := Z.lxor uHashPart (Z.shiftr uHashPart 22) in
  let uHashPart := wrap32 (uHashPart + Z.shiftl uHashPart 4) in
  let uHashPart := Z.lxor uHashPart (Z.shiftr uHashPart 9) in
  let uHashPart := wrap32 (uHashPart + Z.shiftl uHashPart 10) in
  let uHashPart := Z.lxor uHashPart (Z.shiftr uHashPart 2) in
  let uHashPart := wrap32 (uHashPart + Z.shiftl uHashPart 7) in
  let uHashPart := Z.lxor uHashPart (Z.shiftr uHashPart 12) in
  uHashPart.

Definition HASH_Func_Default (uKeySize : Z) (pKey : HASH_KEY) (uHashTabLen : Z) : Z :=
  fold_left (fun uHashKey w => wrap32 (uHashKey + hash_part w))
    (take (uKeyLen uKeySize) pKey) 0.

(** The word loop of HASH_Key_Comp_Default; a key that ends before [n] words
    were compared is outside the contract and counts as a mismatch. *)
Fixpoint key_words_eq (n : nat) (p1 p2 : HASH_KEY) : bool :=
  match n with
  | O => true
  | S n' =>
      match p1, p2 with
      | w1 :: p1', w2 :: p2' => if w1 =? w2 then key_words_eq n' p1' p2' else false
      | _, _ => false
      end
  end.

Definition HASH_Key_Comp_Default (uKeySize : Z) (pKey1 pKey2 : HASH_KEY) : bool :=
  key_words_eq (uKeyLen uKeySize) pKey1 pKey2.

(** ** Chains *)

(** The hash function returns an [IMG_UINT32]. *)
Definition key_index (pHash : HASH_TABLE) (key : HASH_KEY) (uSize : Z) : Z :=
  wrap32 (pfnHashFunc pHash (uKeySize pHash) key uSize) mod uSize.

Definition KEY_TO_INDEX (pHash : HASH_TABLE) (key : HASH_KEY) (uSize : Z) : result Z :=
  if uSize =? 0 then Undefined else Ok (key_index pHash key uSize).

Definition KEY_COMPARE (pHash : HASH_TABLE) (pKey1 pKey2 : HASH_KEY) : bool :=
  pfnKeyComp pHash (uKeySize pHash) pKey1 pKey2.

(** [ppBucketTable[uIndex]], read. *)
Definition slot (ppBucketTable : list (list BUCKET)) (uIndex : Z) : result (list BUCKET) :=
  match ppBucketTable !! Z.to_nat uIndex with
  | Some chain => Ok chain
  | None => Undefined
  end.

Definition _ChainInsert (pHash : HASH_TABLE) (pBucket : BUCKET)
    (ppBucketTable : list (list BUCKET)) (uSize : Z) : result (list (list BUCKET)) :=
  uIndex <- KEY_TO_INDEX pHash (k pBucket) uSize ;;
  chain <- slot ppBucketTable uIndex ;;
  Ok (<[Z.to_nat uIndex := pBucket :: chain]> ppBucketTable).

(** The [while (pBucket != NULL)] loop of _Rehash. *)
Fixpoint rehash_chain (pHash : HASH_TABLE) (chain : list BUCKET)
    (ppNewTable : list (list BUCKET)) (uNewSize : Z) : result (list (list BUCKET)) :=
  match chain with
  | [] => Ok ppNewTable
  | pBucket :: pNextBucket =>
      ppNewTable <- _ChainInsert pHash pBucket ppNewTable uNewSize ;;
      rehash_chain pHash pNextBucket ppNewTable uNewSize
  end.

(** The [for] loop of _Rehash with [n] slots left, the next one being
    [uIndex]. *)
Fixpoint rehash_slots (pHash : HASH_TABLE) (ppOldTable : list (list BUCKET))
    (n uIndex : nat) (ppNewTable : list (list BUCKET)) (uNewSize : Z)
    : result (list (list BUCKET)) :=
  match n with
  | O => Ok ppNewTable
  | S n' =>
      chain <- slot ppOldTable (Z.of_nat uIndex) ;;
      ppNewTable <- rehash_chain pHash chain ppNewTable uNewSize ;;
      rehash_slots pHash ppOldTable n' (S uIndex) ppNewTable uNewSize
  end.

Definition _Rehash (pHash : HASH_TABLE) (ppOldTable : list (list BUCKET)) (uOldSize : Z)
    (ppNewTable : list (list BUCKET)) (uNewSize : Z) : result (list (list BUCKET)) :=
  rehash_slots pHash ppOldTable (Z.to_nat uOldSize) 0 ppNewTable uNewSize.

(** [alloc] is the outcome of the OSAllocMem call for the new table. *)
Definition _Resize (alloc : bool) (pHash : HASH_TABLE) (uNewSize : Z)
    : result (HASH_TABLE * bool) :=
  if negb (uNewSize =? uSize pHash) then
    if negb alloc then Ok (pHash, false)
    else
      let ppNewTable := replicate (Z.to_nat uNewSize) [] in
      ppNewTable <- _Rehash pHash (ppBucketTable pHash) (uSize pHash) ppNewTable uNewSize ;;
      let pHash := set_ppBucketTable pHash ppNewTable in
      let pHash := set_uSize pHash uNewSize in
      Ok (pHash, true)
  else Ok (pHash, true).

(** ** Creation *)

(** A NULL function pointer is [None]; [allocHash] and [allocTable] are the
    outcomes of the two OSAllocMem calls. The key size, a [size_t], is stored
    in an [IMG_UINT32] field. *)
Definition HASH_Create_Extended (allocHash allocTable : bool) (uInitialLen uKeySize : Z)
    (pfnHashFunc : option HASH_FUNC) (pfnKeyComp : option HASH_KEY_COMP)
    : option HASH_TABLE :=
  match pfnHashFunc, pfnKeyComp with
  | Some hashFunc, Some keyComp =>
      if (uInitialLen =? 0) || (uKeySize =? 0) then None
      else if negb allocHash then None
      else if negb allocTable then None
      else Some (mkHASH_TABLE uInitialLen 0 uInitialLen (wrap32 uKeySize) hashFunc keyComp
                   (replicate (Z.to_nat uInitialLen) []) 0)
  | _, _ => None
  end.

Definition HASH_Create (allocHash allocTable : bool) (uInitialLen : Z) : option HASH_TABLE :=
  HASH_Create_Extended allocHash allocTable uInitialLen sizeof_uintptr_t
    (Some HASH_Func_Default) (Some HASH_Key_Comp_Default).

(** ** Destruction *)

Inductive mem_event : Type :=
| FreeBucket (pBucket : BUCKET)
| FreeBucketTable
| FreeHashTable.

Definition tombstone (pBucket : BUCKET) : BUCKET :=
  mkBUCKET BUCKET_FREE (v pBucket) (k pBucket).

(** The leak loop of HASH_Delete with [n] rounds left, the next one at
    [i]: it tombstones and frees [ppBucketTable[i]]. *)
Fixpoint delete_leaked (ppBucketTable : list (list BUCKET)) (n i : nat)
    : result (list mem_event) :=
  match n with
  | O => Ok []
  | S n' =>
      chain <- slot ppBucketTable (Z.of_nat i) ;;
      match chain with
      | [] => Undefined
      | pBucket :: _ =>
          evs <- delete_leaked ppBucketTable n' (S i) ;;
          Ok (FreeBucket (tombstone pBucket) :: evs)
      end
  end.

(** The memory released by HASH_Delete, in order. *)
Definition HASH_Delete (pHash : HASH_TABLE) : result (list mem_event) :=
  let pHash := _inc_ref pHash in
  evs <- (if negb (uCount pHash =? 0)
          then delete_leaked (ppBucketTable pHash) (Z.to_nat (uCount pHash)) 0
          else Ok []) ;;
  Ok (evs ++ [FreeBucketTable; FreeHashTable]).

(** ** Insert *)

(** [allocBucket] and [allocTable] are the outcomes of the OSAllocMem calls
    for the bucket and, when a resize is attempted, for the new table. *)
Definition HASH_Insert_Extended (allocBucket allocTable : bool) (pHash : HASH_TABLE)
    (pKey : HASH_KEY) (val : Z) : result (HASH_TABLE * bool) :=
  let pHash := _inc_ref pHash in
  if negb allocBucket then Ok (pHash, false)
  else
    let pBucket := mkBUCKET BUCKET_SIG val (OSCachedMemCopy pKey (uKeySize pHash)) in
    tbl <- _ChainInsert pHash pBucket (ppBucketTable pHash) (uSize pHash) ;;
    let pHash := set_ppBucketTable pHash tbl in
    let pHash := set_uCount pHash (wrap32 (uCount pHash + 1)) in
    pHash <- (if wrap32 (Z.shiftl (uCount pHash) 1) >? uSize pHash
              then r <- _Resize allocTable pHash (wrap32 (Z.shiftl (uSize pHash) 1)) ;;
                   Ok (fst r)
              else Ok pHash) ;;
    pHash <- _dec_ref pHash ;;
    Ok (pHash, true).

Definition HASH_Insert (allocBucket allocTable : bool) (pHash : HASH_TABLE) (key val : Z)
    : result (HASH_TABLE * bool) :=
  HASH_Insert_Extended allocBucket allocTable pHash [key] val.

(** ** Remove *)

(** The chain walk of HASH_Remove_Extended: the first bucket whose key
    compares equal, and the chain with that bucket unlinked. The unlinked
    bucket is tombstoned and freed, and is no part of the table any more. *)
Fixpoint chain_unlink (pHash : HASH_TABLE) (pKey : HASH_KEY) (chain : list BUCKET)
    : option (BUCKET * list BUCKET) :=
  match chain with
  | [] => None
  | pBucket :: pNext =>
      if KEY_COMPARE pHash (k pBucket) pKey then Some (pBucket, pNext)
      else match chain_unlink pHash pKey pNext with
           | Some (found, pNext') => Some (found, pBucket :: pNext')
           | None => None
           end
  end.

Definition HASH_Remove_Extended (allocTable : bool) (pHash : HASH_TABLE) (pKey : HASH_KEY)
    : result (HASH_TABLE * Z) :=
  let pHash := _inc_ref pHash in
  uIndex <- KEY_TO_INDEX pHash pKey (uSize pHash) ;;
  chain <- slot (ppBucketTable pHash) uIndex ;;
  match chain_unlink pHash pKey chain with
  | Some (pBucket, chain') =>
      let val := v pBucket in
      let pHash := set_ppBucketTable pHash (<[Z.to_nat uIndex := chain']> (ppBucketTable pHash)) in
      let pHash := set_uCount pHash (wrap32 (uCount pHash - 1)) in
      pHash <- (if (uSize pHash >? wrap32 (Z.shiftl (uCount pHash) 2))
                   && (uSize pHash >? uMinimumSize pHash)
                then r <- _Resize allocTable pHash
                            (PRIVATE_MAX (Z.shiftr (uSize pHash) 1) (uMinimumSize pHash)) ;;
                     Ok (fst r)
                else Ok pHash) ;;
      pHash <- _dec_ref pHash ;;
      Ok (pHash, val)
  | None =>
      pHash <- _dec_ref pHash ;;
      Ok (pHash, 0)
  end.

Definition HASH_Remove (allocTable : bool) (pHash : HASH_TABLE) (key : Z)
    : result (HASH_TABLE * Z) :=
  HASH_Remove_Extended allocTable pHash [key].

(** ** Retrieve *)

(** The chain walk of HASH_Retrieve_Extended. *)
Fixpoint chain_find (pHash : HASH_TABLE) (pKey : HASH_KEY) (chain : list BUCKET)
    : option BUCKET :=
  match chain with
  | [] => None
  | pBucket :: pNext =>
      if KEY_COMPARE pHash (k pBucket) pKey then Some pBucket
      else chain_find pHash pKey pNext
  end.

Definition HASH_Retrieve_Extended (pHash : HASH_TABLE) (pKey : HASH_KEY)
    : result (HASH_TABLE * Z) :=
  let pHash := _inc_ref pHash in
  uIndex <- KEY_TO_INDEX pHash pKey (uSize pHash) ;;
  chain <- slot (ppBucketTable pHash) uIndex ;;
  match chain_find pHash pKey chain with
  | Some pBucket =>
      let val := v pBucket in
      pHash <- _dec_ref pHash ;;
      Ok (pHash, val)
  | None =>
      pHash <- _dec_ref pHash ;;
      Ok (pHash, 0)
  end.

Definition HASH_Retrieve (pHash : HASH_TABLE) (key : Z) : result (HASH_TABLE * Z) :=
  HASH_Retrieve_Extended pHash [key].

(** ** Iterate *)

(** The callback is a function of the caller's state [St]: it receives the
    first word of the key and the value, and returns the new state with its
    status. *)
Section Iterate.
Context {St : Type}.

Definition HASH_pfnCallback : Type := St -> Z -> Z -> St * PVRSRV_ERROR.

(** The [while (pBucket != NULL)] loop; a status other than [PVRSRV_OK] is
    the early return. *)
Fixpoint iterate_chain (pfnCallback : HASH_pfnCallback) (chain : list BUCKET) (s : St)
    : St * PVRSRV_ERROR :=
  match chain with
  | [] => (s, PVRSRV_OK)
  | pBucket :: pNextBucket =>
      let '(s, eError) := pfnCallback s (hd 0 (k pBucket)) (v pBucket) in
      if negb (eError =? PVRSRV_OK) then (s, eError)
      else iterate_chain pfnCallback pNextBucket s
  end.

Fixpoint iterate_slots (pfnCallback : HASH_pfnCallback) (ppBucketTable : list (list BUCKET))
    (n uIndex : nat) (s : St) : result (St * PVRSRV_ERROR) :=
  match n with
  | O => Ok (s, PVRSRV_OK)
  | S n' =>
      chain <- slot ppBucketTable (Z.of_nat uIndex) ;;
      let '(s, eError) := iterate_chain pfnCallback chain s in
      if negb (eError =? PVRSRV_OK) then Ok (s, eError)
      else iterate_slots pfnCallback ppBucketTable n' (S uIndex) s
  end.

Definition HASH_Iterate (pHash : HASH_TABLE) (pfnCallback : HASH_pfnCallback) (s : St)
    : result (HASH_TABLE * St * PVRSRV_ERROR) :=
  let pHash := _inc_ref pHash in
  r <- iterate_slots pfnCallback (ppBucketTable pHash) (Z.to_nat (uSize pHash)) 0%nat s ;;
  pHash <- _dec_ref pHash ;;
  Ok (pHash, fst r, snd r).
End Iterate.

Arguments HASH_pfnCallback St : clear implicits.

(** * Properties *)

(** ** Well-formed tables *)

(** Every bucket of slot [i] hashes to [i] for a table of [size] slots. *)
Definition slots_ok (pHash : HASH_TABLE) (size : Z) (tbl : list (list BUCKET)) : Prop :=
  forall (i : nat) (chain : list BUCKET) (b : BUCKET),
    tbl !! i = Some chain -> b ∈ chain -> key_index pHash (k b) size = Z.of_nat i.

(** The state of a table between two calls of its interface. *)
Record valid (t : HASH_TABLE) : Prop := mkvalid {
  valid_size : 0 < uSize t < 2 ^ 32;
  valid_min : 0 < uMinimumSize t <= uSize t;
  valid_len : length (ppBucketTable t) = Z.to_nat (uSize t);
  valid_count : uCount t = Z.of_nat (length (entries t));
  valid_count32 : uCount t < 2 ^ 32;
  valid_slots : slots_ok t (uSize t) (ppBucketTable t);
  valid_ref : hRefCount t = 0
}.

(** The part of [valid] that lookups rely on. *)
Record wf (t : HASH_TABLE) : Prop := mkwf {
  wf_size : 0 < uSize t;
  wf_len : length (ppBucketTable t) = Z.to_nat (uSize t);
  wf_slots : slots_ok t (uSize t) (ppBucketTable t);
  wf_ref : hRefCount t = 0
}.

(** A decision procedure for [valid]. *)
Fixpoint slots_okb (pHash : HASH_TABLE) (size : Z) (tbl : list (list BUCKET)) (i : nat) : bool :=
  match tbl with
  | [] => true
  | chain :: rest =>
      forallb (fun b => key_index pHash (k b) size =? Z.of_nat i) chain
      && slots_okb pHash size rest (S i)
  end.

Definition validb (t : HASH_TABLE) : bool :=
  (0 <? uSize t) && (uSize t <? 2 ^ 32)
  && (0 <? uMinimumSize t) && (uMinimumSize t <=? uSize t)
  && (length (ppBucketTable t) =? Z.to_nat (uSize t))%nat
  && (uCount t =? Z.of_nat (length (entries t)))
  && (uCount t <? 2 ^ 32)
  && slots_okb t (uSize t) (ppBucketTable t) 0
  && (hRefCount t =? 0).

(** The entries of a table whose key compares equal to [key]. *)
Definition matching (t : HASH_TABLE) (key : HASH_KEY) : list BUCKET :=
  filter (fun b => KEY_COMPARE t (k b) key = true) (entries t).

(** Two tables with the same strategy and key size. *)
Definition same_strategy (t t' : HASH_TABLE) : Prop :=
  uKeySize t = uKeySize t' /\ pfnHashFunc t = pfnHashFunc t' /\ pfnKeyComp t = pfnKeyComp t'.

(** The key is a buffer of exactly the table's key size. *)
Definition key_sized (t : HASH_TABLE) (key : HASH_KEY) : Prop :=
  length key = uKeyLen (uKeySize t).

(** ** Operation sequences *)

Inductive op : Type :=
| OpInsert (allocBucket allocTable : bool) (key : HASH_KEY) (val : Z)
| OpRemove (allocTable : bool) (key : HASH_KEY).

Definition step (t : HASH_TABLE) (o : op) : result HASH_TABLE :=
  match o with
  | OpInsert ab at_ key val => r <- HASH_Insert_Extended ab at_ t key val ;; Ok (fst r)
  | OpRemove at_ key => r <- HASH_Remove_Extended at_ t key ;; Ok (fst r)
  end.

Fixpoint run (t : HASH_TABLE) (ops : list op) : result HASH_TABLE :=
  match ops with
  | [] => Ok t
  | o :: ops' => t' <- step t o ;; run t' ops'
  end.



(** ** Iteration traces *)

(** A callback that also records the arguments of each of its calls. *)
Definition logged {St : Type} (cb : HASH_pfnCallback St)
    : HASH_pfnCallback (St * list (Z * Z)) :=
  fun s key val =>
    let '(s', e) := cb (fst s) key val in ((s', snd s ++ [(key, val)]), e).

(** What the callback is shown of a bucket. *)
Definition visit_args (b : BUCKET) : Z * Z := (hd 0 (k b), v b).

(** The statuses the callback returns when it is run over the buckets of
    [l] in order, whatever the status. *)
Fixpoint statuses {St : Type} (cb : HASH_pfnCallback St) (l : list BUCKET) (s : St)
    : list PVRSRV_ERROR :=
  match l with
  | [] => []
  | b :: l' => let '(s', e) := cb s (hd 0 (k b)) (v b) in e :: statuses cb l' s'
  end.

(** ** Effects of the operations *)

(** What a completed resize leaves behind. *)
Record resized (t t' : HASH_TABLE) (n : Z) : Prop := mkresized {
  resized_strategy : same_strategy t t';
  resized_size : uSize t' = n;
  resized_count : uCount t' = uCount t;
  resized_min : uMinimumSize t' = uMinimumSize t;
  resized_ref : hRefCount t' = hRefCount t;
  resized_len : length (ppBucketTable t') = Z.to_nat n;
  resized_entries : entries t' ≡ₚ entries t;
  resized_slots : 0 < n -> slots_ok t' n (ppBucketTable t');
  resized_nonzero : entries t <> [] -> n <> 0
}.

(** The bucket HASH_Insert_Extended links into the table. *)
Definition new_bucket (t : HASH_TABLE) (key : HASH_KEY) (val : Z) : BUCKET :=
  mkBUCKET BUCKET_SIG val (OSCachedMemCopy key (uKeySize t)).

(** The test that makes HASH_Insert_Extended attempt a resize. *)
Definition grows (t : HASH_TABLE) : bool :=
  wrap32 (Z.shiftl (wrap32 (uCount t + 1)) 1) >? uSize t.

(** What an insert that obtained its bucket leaves behind. *)
Record inserted (allocTable : bool) (t t' : HASH_TABLE) (nb : BUCKET) : Prop := mkinserted {
  ins_strategy : same_strategy t t';
  ins_count : uCount t' = wrap32 (uCount t + 1);
  ins_min : uMinimumSize t' = uMinimumSize t;
  ins_ref : hRefCount t' = 0;
  ins_len : length (ppBucketTable t') = Z.to_nat (uSize t');
  ins_entries : entries t' ≡ₚ nb :: entries t;
  ins_size : uSize t' = if grows t && allocTable then wrap32 (Z.shiftl (uSize t) 1) else uSize t;
  ins_table : uSize t' = uSize t ->
              exists chain,
                ppBucketTable t !! Z.to_nat (key_index t (k nb) (uSize t)) = Some chain /\
                ppBucketTable t' = <[Z.to_nat (key_index t (k nb) (uSize t)) := nb :: chain]>
                                     (ppBucketTable t);
  ins_slots : 0 < uSize t -> 0 < uSize t' -> slots_ok t (uSize t) (ppBucketTable t) ->
              slots_ok t' (uSize t') (ppBucketTable t');
  ins_pos : 0 < uSize t -> 0 < uSize t'
}.

(** The test that makes HASH_Remove_Extended attempt a resize. *)
Definition shrinks (t : HASH_TABLE) : bool :=
  (uSize t >? wrap32 (Z.shiftl (wrap32 (uCount t - 1)) 2)) && (uSize t >? uMinimumSize t).

(** What a remove that found its key leaves behind. *)
Record removed (allocTable : bool) (t t' : HASH_TABLE) (b : BUCKET) : Prop := mkremoved {
  rem_strategy : same_strategy t t';
  rem_count : uCount t' = wrap32 (uCount t - 1);
  rem_min : uMinimumSize t' = uMinimumSize t;
  rem_ref : hRefCount t' = 0;
  rem_len : length (ppBucketTable t') = Z.to_nat (uSize t');
  rem_entries : entries t ≡ₚ b :: entries t';
  rem_size : uSize t' = if shrinks t && allocTable
                        then PRIVATE_MAX (Z.shiftr (uSize t) 1) (uMinimumSize t)
                        else uSize t;
  rem_slots : 0 < uSize t -> 0 < uSize t' -> slots_ok t (uSize t) (ppBucketTable t) ->
              slots_ok t' (uSize t') (ppBucketTable t')
}.

(** The chain walk for [key] stops at the bucket [b]. *)
Definition finds (t : HASH_TABLE) (key : HASH_KEY) (b : BUCKET) : Prop :=
  exists chain, ppBucketTable t !! Z.to_nat (key_index t key (uSize t)) = Some chain /\
                chain_find t key chain = Some b.

(** No key is held by two entries: the entries matching the key of an entry
    are that entry alone. *)
Definition distinct_keys (t : HASH_TABLE) : Prop :=
  Forall (fun b => matching t (k b) = [b]) (entries t).

(** The comparison accepts every stored key as equal to itself. *)
Definition reflexive_keys (t : HASH_TABLE) : Prop :=
  Forall (fun b => KEY_COMPARE t (k b) (k b) = true) (entries t).


(** ** Concrete tables *)

Definition bucket (key val : Z) : BUCKET := mkBUCKET BUCKET_SIG val [key].

(** The table of [HASH_Create(uInitialLen)] with the given contents. *)
Definition table (size count minimum : Z) (tbl : list (list BUCKET)) : HASH_TABLE :=
  mkHASH_TABLE size count minimum sizeof_uintptr_t HASH_Func_Default HASH_Key_Comp_Default tbl 0.

(** [HASH_Create(4)]. *)
Definition table4 : HASH_TABLE := table 4 0 4 [[]; []; []; []].

(** [HASH_Create(4)], then key 2 with value 5. *)
Definition table4_one : HASH_TABLE := table 4 1 4 [[]; []; []; [bucket 2 5]].

(** [HASH_Create(4)], then key 1 with value 10 and key 2 with value 5. *)
Definition table4_two : HASH_TABLE := table 4 2 4 [[]; []; []; [bucket 2 5; bucket 1 10]].

(** [HASH_Create(4)], then key 1 with value 10 and key 1 again with 20. *)
Definition table4_dup : HASH_TABLE := table 4 2 4 [[]; []; []; [bucket 1 20; bucket 1 10]].

(** [HASH_Create(4)], then key 2 with value 5 and key 1 with value 10. *)
Definition table4_two' : HASH_TABLE := table 4 2 4 [[]; []; []; [bucket 1 10; bucket 2 5]].




(** [table4_dup] after key 1 was removed once. *)
Definition table4_left : HASH_TABLE := table 4 1 4 [[]; []; []; [bucket 1 10]].

(** [table4_three] after key 3 was removed. *)
Definition table8_two : HASH_TABLE :=
  table 8 2 4 [[]; []; []; []; []; []; []; [bucket 1 10; bucket 2 5]].


(** [HASH_Create(4)], then key 9 with value 1: the bucket sits in slot 0. *)
Definition table4_nine : HASH_TABLE := table 4 1 4 [[bucket 9 1]; []; []; []].

(** [HASH_Create(4)], then key 1 with value 10 and key 9 with value 1. *)
Definition table4_nine_one : HASH_TABLE :=
  table 4 2 4 [[bucket 9 1]; []; []; [bucket 1 10]].

(** [table4] with its guard held. *)
Definition table4_held : HASH_TABLE :=
  mkHASH_TABLE 4 0 4 sizeof_uintptr_t HASH_Func_Default HASH_Key_Comp_Default
    [[]; []; []; []] 1.

(** A visitor that adds up the values it is shown and aborts with status 7
    on the value 5. *)
Definition sum_until_5 : HASH_pfnCallback Z :=
  fun s key val => (s + val, if val =? 5 then 7 else PVRSRV_OK).

(** [HASH_Create(1)], then key 1 with value 10: the insert doubled it. *)
Definition table1_one : HASH_TABLE := table 2 1 1 [[]; [bucket 1 10]].

(** [HASH_Create(4)], then keys 1, 2 and 3: the third insert doubled it. *)
Definition table4_three : HASH_TABLE :=
  table 8 3 4 [[]; [bucket 3 7]; []; []; []; []; []; [bucket 1 10; bucket 2 5]].

(** ** Diagnostics *)

(** The chain loop of HASH_Dump, from [uLength]: one more per bucket. *)
Fixpoint dump_chain (chain : list BUCKET) (uLength : Z) : Z :=
  match chain with
  | [] => uLength
  | _ :: pNext => dump_chain pNext (wrap32 (uLength + 1))
  end.

(** The slot loop of HASH_Dump with [n] slots left, the next one being
    [uIndex]: the longest chain and the number of NULL slots so far. *)
Fixpoint dump_slots (ppBucketTable : list (list BUCKET)) (n uIndex : nat)
    (uMaxLength uEmptyCount : Z) : result (Z * Z) :=
  match n with
  | O => Ok (uMaxLength, uEmptyCount)
  | S n' =>
      chain <- slot ppBucketTable (Z.of_nat uIndex) ;;
      let uEmptyCount := match chain with
                         | [] => wrap32 (uEmptyCount + 1)
                         | _ :: _ => uEmptyCount
                         end in
      let uLength := dump_chain chain 0 in
      let uMaxLength := PRIVATE_MAX uMaxLength uLength in
      dump_slots ppBucketTable n' (S uIndex) uMaxLength uEmptyCount
  end.

(** The numbers HASH_Dump traces, in the order of its two PVR_TRACE calls:
    uMinimumSize, size, count, then empty and max. *)
Definition HASH_Dump (pHash : HASH_TABLE) : result (list Z) :=
  r <- dump_slots (ppBucketTable pHash) (Z.to_nat (uSize pHash)) 0 0 0 ;;
  Ok [uMinimumSize pHash; uSize pHash; uCount pHash; snd r; fst r].

(** ** Further predicates *)

(** Both allocations an operation may ask for succeed. *)
Definition allocs_ok (o : op) : bool :=
  match o with
  | OpInsert allocBucket allocTable _ _ => allocBucket && allocTable
  | OpRemove _ _ => true
  end.


(** The table uses the default strategy on keys of one word, as the tables
    of HASH_Create do. *)
Definition word_table (t : HASH_TABLE) : Prop :=
  pfnHashFunc t = HASH_Func_Default /\ pfnKeyComp t = HASH_Key_Comp_Default /\
  uKeySize t = sizeof_uintptr_t.

(** Calls of the one-word interface; the bucket of an insert is always
    obtained, the new slot array of a resize may not be. *)
Inductive word_op : Type :=
| WInsert (allocTable : bool) (key val : Z)
| WRemove (allocTable : bool) (key : Z).

Definition word_step (t : HASH_TABLE) (o : word_op) : result HASH_TABLE :=
  match o with
  | WInsert allocTable key val => r <- HASH_Insert true allocTable t key val ;; Ok (fst r)
  | WRemove allocTable key => r <- HASH_Remove allocTable t key ;; Ok (fst r)
  end.

Fixpoint word_run (t : HASH_TABLE) (ops : list word_op) : result HASH_TABLE :=
  match ops with
  | [] => Ok t
  | o :: ops' => t' <- word_step t o ;; word_run t' ops'
  end.

(** The finite map the calls describe, when no key is inserted while the
    map holds it. *)
Fixpoint word_model (ops : list word_op) (m : gmap Z Z) : option (gmap Z Z) :=
  match ops with
  | [] => Some m
  | WInsert _ key val :: ops' =>
      match m !! key with
      | None => word_model ops' (<[key := val]> m)
      | Some _ => None
      end
  | WRemove _ key :: ops' => word_model ops' (delete key m)
  end.

(** The buckets of a finite map of one-word keys. *)
Definition model_buckets (m : gmap Z Z) : list BUCKET :=
  (fun kv => bucket (fst kv) (snd kv)) <$> map_to_list m.

(** The table holds the bindings of the finite map [m], one bucket each. *)
Definition represents (t : HASH_TABLE) (m : gmap Z Z) : Prop :=
  valid t /\ word_table t /\ entries t ≡ₚ model_buckets m.

(** A visitor that counts its calls and never aborts. *)
Definition count_visits : HASH_pfnCallback Z :=
  fun s key val => (s + 1, PVRSRV_OK).

(** ** Basic facts *)

Lemma wrap32_small (x : Z) : 0 <= x < 2 ^ 32 -> wrap32 x = x.
Proof. intros H. unfold wrap32. apply Z.mod_small. exact H. Qed.

Lemma wrap32_range (x : Z) : 0 <= wrap32 x < 2 ^ 32.
Proof. unfold wrap32. apply Z.mod_pos_bound. lia. Qed.

Lemma shiftl_1 (x : Z) : Z.shiftl x 1 = 2 * x.
Proof. rewrite Z.shiftl_mul_pow2 by lia. lia. Qed.

Lemma shiftl_2 (x : Z) : Z.shiftl x 2 = 4 * x.
Proof. rewrite Z.shiftl_mul_pow2 by lia. lia. Qed.

Lemma shiftr_1 (x : Z) : Z.shiftr x 1 = x / 2.
Proof. rewrite Z.shiftr_div_pow2 by lia. reflexivity. Qed.

Lemma PRIVATE_MAX_max (a b : Z) : PRIVATE_MAX a b = Z.max a b.
Proof. unfold PRIVATE_MAX. destruct (Z.gtb_spec a b); lia. Qed.

Lemma key_index_range (t : HASH_TABLE) (key : HASH_KEY) (size : Z) :
  0 < size -> 0 <= key_index t key size < size.
Proof. intros H. unfold key_index. apply Z.mod_pos_bound. exact H. Qed.

Lemma guard_round_trip (t : HASH_TABLE) :
  hRefCount t = 0 -> _dec_ref (_inc_ref t) = Ok t.
Proof. destruct t; simpl. intros ->. reflexivity. Qed.

Lemma same_strategy_refl (t : HASH_TABLE) : same_strategy t t.
Proof. repeat split. Qed.

Lemma same_strategy_trans (t1 t2 t3 : HASH_TABLE) :
  same_strategy t1 t2 -> same_strategy t2 t3 -> same_strategy t1 t3.
Proof. unfold same_strategy. intros (?&?&?) (?&?&?). repeat split; congruence. Qed.

Lemma same_strategy_sym (t1 t2 : HASH_TABLE) : same_strategy t1 t2 -> same_strategy t2 t1.
Proof. unfold same_strategy. intros (?&?&?). repeat split; congruence. Qed.

Lemma key_index_strategy (t t' : HASH_TABLE) (key : HASH_KEY) (size : Z) :
  same_strategy t t' -> key_index t key size = key_index t' key size.
Proof. intros (Hk&Hh&_). unfold key_index. rewrite Hk, Hh. reflexivity. Qed.

Lemma KEY_COMPARE_strategy (t t' : HASH_TABLE) (a b : HASH_KEY) :
  same_strategy t t' -> KEY_COMPARE t a b = KEY_COMPARE t' a b.
Proof. intros (Hk&_&Hc). unfold KEY_COMPARE. rewrite Hk, Hc. reflexivity. Qed.

Lemma chain_find_strategy (t t' : HASH_TABLE) (key : HASH_KEY) (chain : list BUCKET) :
  same_strategy t t' -> chain_find t key chain = chain_find t' key chain.
Proof.
  intros H. induction chain as [|b chain IH]; simpl; [reflexivity|].
  rewrite (KEY_COMPARE_strategy t t' _ _ H), IH. reflexivity.
Qed.

Lemma chain_unlink_strategy (t t' : HASH_TABLE) (key : HASH_KEY) (chain : list BUCKET) :
  same_strategy t t' -> chain_unlink t key chain = chain_unlink t' key chain.
Proof.
  intros H. induction chain as [|b chain IH]; simpl; [reflexivity|].
  rewrite (KEY_COMPARE_strategy t t' _ _ H), IH. reflexivity.
Qed.

Lemma slots_ok_strategy (t t' : HASH_TABLE) (size : Z) (tbl : list (list BUCKET)) :
  same_strategy t t' -> slots_ok t size tbl -> slots_ok t' size tbl.
Proof.
  intros H Hs i chain b Hi Hb. rewrite <- (key_index_strategy t t' _ _ H). eauto.
Qed.

Lemma matching_strategy (t t' : HASH_TABLE) (key : HASH_KEY) :
  same_strategy t t' -> entries t = entries t' -> matching t key = matching t' key.
Proof.
  intros H He. unfold matching. rewrite <- He.
  apply list_filter_iff. intros b.
  rewrite (KEY_COMPARE_strategy t t' _ _ H). reflexivity.
Qed.

Lemma valid_wf (t : HASH_TABLE) : valid t -> wf t.
Proof. intros [Hsz _ Hlen _ _ Hsl Href]. constructor; auto. lia. Qed.

Lemma slots_okb_sound (t : HASH_TABLE) (size : Z) (tbl : list (list BUCKET)) (i : nat) :
  slots_okb t size tbl i = true ->
  forall (j : nat) (chain : list BUCKET) (b : BUCKET),
    tbl !! j = Some chain -> b ∈ chain -> key_index t (k b) size = Z.of_nat (i + j).
Proof.
  revert i. induction tbl as [|c rest IH]; intros i H j chain b Hj Hb.
  - rewrite lookup_nil in Hj. discriminate.
  - simpl in H. apply andb_true_iff in H as [Hc Hrest].
    destruct j as [|j]; simpl in Hj.
    + injection Hj as <-. rewrite forallb_forall in Hc.
      apply list_elem_of_In in Hb. specialize (Hc _ Hb). replace (i + 0)%nat with i by lia. lia.
    + replace (i + S j)%nat with (S i + j)%nat by lia. eapply IH; eauto.
Qed.

Lemma validb_sound (t : HASH_TABLE) : validb t = true -> valid t.
Proof.
  unfold validb. rewrite !andb_true_iff.
  intros ((((((((H1&H2)&H3)&H4)&H5)&H6)&H7)&H8)&H9).
  constructor; try lia.
  - apply Nat.eqb_eq in H5. exact H5.
  - intros i chain b Hi Hb. exact (slots_okb_sound _ _ _ _ H8 i chain b Hi Hb).
Qed.

(** ** Chain insertion and rehash *)

Lemma concat_insert_cons (tbl : list (list BUCKET)) (i : nat) (chain : list BUCKET)
    (b : BUCKET) :
  tbl !! i = Some chain -> concat (<[i := b :: chain]> tbl) ≡ₚ b :: concat tbl.
Proof.
  revert i. induction tbl as [|c rest IH]; intros i Hi.
  - rewrite lookup_nil in Hi. discriminate.
  - destruct i as [|i]; simpl in *.
    + injection Hi as ->. reflexivity.
    + rewrite (IH i Hi). symmetry. apply Permutation_middle.
Qed.

Lemma concat_insert_unlink (tbl : list (list BUCKET)) (i : nat)
    (chain chain' : list BUCKET) (b : BUCKET) :
  tbl !! i = Some chain -> chain ≡ₚ b :: chain' ->
  concat tbl ≡ₚ b :: concat (<[i := chain']> tbl).
Proof.
  revert i. induction tbl as [|c rest IH]; intros i Hi Hp.
  - rewrite lookup_nil in Hi. discriminate.
  - destruct i as [|i]; simpl in *.
    + injection Hi as ->. rewrite Hp. reflexivity.
    + rewrite (IH i Hi Hp). symmetry. apply Permutation_middle.
Qed.

Lemma slot_Ok (tbl : list (list BUCKET)) (i : Z) (chain : list BUCKET) :
  slot tbl i = Ok chain <-> tbl !! Z.to_nat i = Some chain.
Proof.
  unfold slot. destruct (tbl !! Z.to_nat i); split; intros H; congruence.
Qed.

Lemma slot_in_range (tbl : list (list BUCKET)) (i : Z) :
  (Z.to_nat i < length tbl)%nat -> exists chain, tbl !! Z.to_nat i = Some chain /\ slot tbl i = Ok chain.
Proof.
  intros H. apply lookup_lt_is_Some_2 in H as [chain Hc].
  exists chain. split; [exact Hc|]. apply slot_Ok. exact Hc.
Qed.

Lemma ChainInsert_inv (t : HASH_TABLE) (b : BUCKET) (tbl tbl' : list (list BUCKET)) (size : Z) :
  _ChainInsert t b tbl size = Ok tbl' ->
  size <> 0 /\
  exists chain, tbl !! Z.to_nat (key_index t (k b) size) = Some chain /\
                tbl' = <[Z.to_nat (key_index t (k b) size) := b :: chain]> tbl.
Proof.
  unfold _ChainInsert, KEY_TO_INDEX. destruct (Z.eqb_spec size 0) as [|Hne]; simpl; [discriminate|].
  destruct (slot tbl (key_index t (k b) size)) as [chain| |] eqn:Hs; simpl; try discriminate.
  intros [= <-]. split; [exact Hne|]. exists chain. split; [|reflexivity].
  apply slot_Ok. exact Hs.
Qed.

Lemma ChainInsert_ok (t : HASH_TABLE) (b : BUCKET) (tbl : list (list BUCKET)) (size : Z) :
  0 < size -> length tbl = Z.to_nat size ->
  exists chain, tbl !! Z.to_nat (key_index t (k b) size) = Some chain /\
    _ChainInsert t b tbl size = Ok (<[Z.to_nat (key_index t (k b) size) := b :: chain]> tbl).
Proof.
  intros Hs Hl. pose proof (key_index_range t (k b) size Hs) as Hr.
  destruct (slot_in_range tbl (key_index t (k b) size)) as (chain & Hc & Hsl); [lia|].
  exists chain. split; [exact Hc|].
  unfold _ChainInsert, KEY_TO_INDEX. destruct (Z.eqb_spec size 0); [lia|]. simpl.
  rewrite Hsl. reflexivity.
Qed.

Lemma slots_ok_insert (t : HASH_TABLE) (size : Z) (tbl : list (list BUCKET))
    (chain : list BUCKET) (b : BUCKET) :
  0 < size -> slots_ok t size tbl ->
  tbl !! Z.to_nat (key_index t (k b) size) = Some chain ->
  slots_ok t size (<[Z.to_nat (key_index t (k b) size) := b :: chain]> tbl).
Proof.
  intros Hs Hok Hc j c x Hj Hx.
  pose proof (key_index_range t (k b) size Hs) as Hr.
  destruct (decide (Z.to_nat (key_index t (k b) size) = j)) as [<-|Hne].
  - rewrite list_lookup_insert_eq in Hj by (eapply lookup_lt_Some; eauto).
    injection Hj as <-. apply elem_of_cons in Hx as [->|Hx]; [lia|].
    eapply Hok; eauto.
  - rewrite list_lookup_insert_ne in Hj by exact Hne. eapply Hok; eauto.
Qed.

Lemma slots_ok_replicate (t : HASH_TABLE) (size : Z) (n : nat) :
  slots_ok t size (replicate n []).
Proof.
  intros i chain b Hi Hb. apply lookup_replicate in Hi as [-> _].
  apply elem_of_nil in Hb. contradiction.
Qed.

Lemma concat_replicate_nil (n : nat) : concat (replicate n ([] : list BUCKET)) = [].
Proof. induction n as [|n IH]; simpl; [reflexivity | exact IH]. Qed.

Lemma rehash_chain_app (t : HASH_TABLE) (l1 l2 : list BUCKET) (tbl : list (list BUCKET))
    (size : Z) :
  rehash_chain t (l1 ++ l2) tbl size
  = (tbl' <- rehash_chain t l1 tbl size ;; rehash_chain t l2 tbl' size).
Proof.
  revert tbl. induction l1 as [|b l1 IH]; intros tbl; simpl; [reflexivity|].
  destruct (_ChainInsert t b tbl size); simpl; auto.
Qed.

Lemma rehash_chain_inv (t : HASH_TABLE) (l : list BUCKET) (tbl tbl' : list (list BUCKET))
    (size : Z) :
  rehash_chain t l tbl size = Ok tbl' ->
  length tbl' = length tbl /\ concat tbl' ≡ₚ l ++ concat tbl /\
  (0 < size -> slots_ok t size tbl -> slots_ok t size tbl') /\
  (l <> [] -> size <> 0).
Proof.
  revert tbl. induction l as [|b l IH]; intros tbl H; simpl in H.
  - injection H as <-. split; [reflexivity|]. split; [reflexivity|].
    split; [auto|]. intros Hne. contradiction.
  - destruct (_ChainInsert t b tbl size) as [tbl1| |] eqn:Hc; simpl in H; try discriminate.
    apply ChainInsert_inv in Hc as (Hnz & chain & Hlook & ->).
    destruct (IH _ H) as (Hlen & Hperm & Hok & _).
    rewrite length_insert in Hlen. split; [exact Hlen|]. split; [|split].
    + rewrite Hperm, (concat_insert_cons _ _ _ _ Hlook). simpl.
      symmetry. apply Permutation_middle.
    + intros Hs Hslots. apply Hok; [exact Hs|]. apply slots_ok_insert; assumption.
    + intros _. exact Hnz.
Qed.

Lemma rehash_chain_ok (t : HASH_TABLE) (l : list BUCKET) (tbl : list (list BUCKET))
    (size : Z) :
  0 < size -> length tbl = Z.to_nat size ->
  exists tbl', rehash_chain t l tbl size = Ok tbl'.
Proof.
  intros Hs. revert tbl. induction l as [|b l IH]; intros tbl Hl; simpl.
  - eauto.
  - destruct (ChainInsert_ok t b tbl size Hs Hl) as (chain & _ & ->). simpl.
    apply IH. rewrite length_insert. exact Hl.
Qed.

Lemma rehash_slots_flat (t : HASH_TABLE) (old : list (list BUCKET)) (n i : nat)
    (new : list (list BUCKET)) (size : Z) :
  (i + n <= length old)%nat ->
  rehash_slots t old n i new size = rehash_chain t (concat (take n (drop i old))) new size.
Proof.
  revert i new. induction n as [|n IH]; intros i new Hl; simpl.
  - reflexivity.
  - destruct (slot_in_range old (Z.of_nat i)) as (chain & Hc & ->); [lia|].
    rewrite Nat2Z.id in Hc. simpl.
    rewrite (drop_S _ _ _ Hc). simpl. rewrite rehash_chain_app.
    destruct (rehash_chain t chain new size); simpl; auto.
    apply IH. lia.
Qed.

Lemma Rehash_flat (t : HASH_TABLE) (old new : list (list BUCKET)) (oldSize size : Z) :
  length old = Z.to_nat oldSize ->
  _Rehash t old oldSize new size = rehash_chain t (concat old) new size.
Proof.
  intros Hl. unfold _Rehash. rewrite rehash_slots_flat by lia.
  rewrite drop_0, <- Hl, firstn_all. reflexivity.
Qed.

(** ** Resize *)

Lemma Resize_same (alloc : bool) (t : HASH_TABLE) : _Resize alloc t (uSize t) = Ok (t, true).
Proof. unfold _Resize. rewrite Z.eqb_refl. reflexivity. Qed.

Lemma Resize_alloc_failed (t : HASH_TABLE) (n : Z) :
  n <> uSize t -> _Resize false t n = Ok (t, false).
Proof. intros H. unfold _Resize. destruct (Z.eqb_spec n (uSize t)); [contradiction|]. reflexivity. Qed.

Lemma Resize_inv (alloc : bool) (t : HASH_TABLE) (n : Z) (r : HASH_TABLE * bool) :
  length (ppBucketTable t) = Z.to_nat (uSize t) ->
  _Resize alloc t n = Ok r ->
  (fst r = t /\ (n = uSize t \/ alloc = false)) \/
  (n <> uSize t /\ alloc = true /\ snd r = true /\ resized t (fst r) n).
Proof.
  intros Hl. unfold _Resize. destruct (Z.eqb_spec n (uSize t)) as [->|Hne]; simpl.
  - intros [= <-]. left. auto.
  - destruct alloc; simpl.
    + rewrite (Rehash_flat _ _ _ _ _ Hl).
      destruct (rehash_chain t (concat (ppBucketTable t)) (replicate (Z.to_nat n) []) n)
        as [tbl'| |] eqn:Hr; simpl; try discriminate.
      intros [= <-]. right.
      split; [exact Hne|]. split; [reflexivity|]. split; [reflexivity|]. simpl.
      apply rehash_chain_inv in Hr as (Hlen & Hperm & Hok & Hnz).
      rewrite length_replicate in Hlen.
      rewrite concat_replicate_nil, app_nil_r in Hperm.
      constructor; simpl; auto; [repeat split|].
      intros Hn. apply (slots_ok_strategy t); [repeat split|].
      apply Hok; [exact Hn|]. apply slots_ok_replicate.
    + intros [= <-]. left. auto.
Qed.

Lemma Resize_ok (alloc : bool) (t : HASH_TABLE) (n : Z) :
  length (ppBucketTable t) = Z.to_nat (uSize t) -> 0 < n ->
  exists r, _Resize alloc t n = Ok r.
Proof.
  intros Hl Hn. unfold _Resize. destruct (n =? uSize t); simpl; [eauto|].
  destruct alloc; simpl; [|eauto].
  rewrite (Rehash_flat _ _ _ _ _ Hl).
  destruct (rehash_chain_ok t (concat (ppBucketTable t)) (replicate (Z.to_nat n) []) n Hn)
    as (tbl' & ->); [apply length_replicate|].
  simpl. eauto.
Qed.

(** ** Chain walks *)

Lemma chain_find_Some (t : HASH_TABLE) (key : HASH_KEY) (chain : list BUCKET) (b : BUCKET) :
  chain_find t key chain = Some b -> b ∈ chain /\ KEY_COMPARE t (k b) key = true.
Proof.
  induction chain as [|x chain IH]; simpl; [discriminate|].
  destruct (KEY_COMPARE t (k x) key) eqn:Hx.
  - intros [= <-]. split; [left | exact Hx].
  - intros H. destruct (IH H) as [Hin Hc]. split; [right; exact Hin | exact Hc].
Qed.

Lemma chain_find_None (t : HASH_TABLE) (key : HASH_KEY) (chain : list BUCKET) :
  chain_find t key chain = None <-> forall x, x ∈ chain -> KEY_COMPARE t (k x) key = false.
Proof.
  induction chain as [|x chain IH]; simpl.
  - split; [|reflexivity]. intros _ y Hy. apply elem_of_nil in Hy. contradiction.
  - destruct (KEY_COMPARE t (k x) key) eqn:Hx.
    + split; [discriminate|]. intros H. specialize (H x (list_elem_of_here _ _)). congruence.
    + rewrite IH. split.
      * intros H y Hy. apply elem_of_cons in Hy as [->|Hy]; auto.
      * intros H y Hy. apply H. right. exact Hy.
Qed.


Lemma chain_unlink_Some (t : HASH_TABLE) (key : HASH_KEY) (chain chain' : list BUCKET)
    (b : BUCKET) :
  chain_unlink t key chain = Some (b, chain') ->
  chain_find t key chain = Some b /\
  exists pre post, chain = pre ++ b :: post /\ chain' = pre ++ post.
Proof.
  revert chain'. induction chain as [|x chain IH]; intros chain'; simpl; [discriminate|].
  destruct (KEY_COMPARE t (k x) key) eqn:Hx.
  - intros [= <- <-]. split; [reflexivity|]. exists [], chain. auto.
  - destruct (chain_unlink t key chain) as [[f rest]|]; [|discriminate].
    intros [= <- <-]. destruct (IH rest eq_refl) as (Hf & pre & post & -> & ->).
    split; [exact Hf|]. exists (x :: pre), post. auto.
Qed.

Lemma chain_unlink_None (t : HASH_TABLE) (key : HASH_KEY) (chain : list BUCKET) :
  chain_unlink t key chain = None <-> chain_find t key chain = None.
Proof.
  induction chain as [|x chain IH]; simpl; [tauto|].
  destruct (KEY_COMPARE t (k x) key); [split; discriminate|].
  destruct (chain_unlink t key chain) as [[f rest]|].
  - split; [discriminate|]. intros H. apply IH in H. discriminate.
  - split; [|reflexivity]. intros _. apply IH. reflexivity.
Qed.

Lemma chain_find_is_Some (t : HASH_TABLE) (key : HASH_KEY) (chain : list BUCKET) (b : BUCKET) :
  b ∈ chain -> KEY_COMPARE t (k b) key = true -> exists x, chain_find t key chain = Some x.
Proof.
  intros Hb Hc. destruct (chain_find t key chain) as [x|] eqn:Hf; [eauto|].
  rewrite chain_find_None in Hf. specialize (Hf b Hb). congruence.
Qed.

(** ** Entries and slots *)

Lemma entries_slot (tbl : list (list BUCKET)) (b : BUCKET) :
  b ∈ concat tbl <-> exists (i : nat) chain, tbl !! i = Some chain /\ b ∈ chain.
Proof.
  rewrite list_elem_of_In, in_concat. split.
  - intros (chain & Hc & Hb). apply list_elem_of_In, list_elem_of_lookup in Hc as [i Hi].
    exists i, chain. split; [exact Hi|]. apply list_elem_of_In. exact Hb.
  - intros (i & chain & Hi & Hb). exists chain. split.
    + apply list_elem_of_In, list_elem_of_lookup. eauto.
    + apply list_elem_of_In. exact Hb.
Qed.

Lemma matching_elem (t : HASH_TABLE) (key : HASH_KEY) (b : BUCKET) :
  b ∈ matching t key <-> KEY_COMPARE t (k b) key = true /\ b ∈ entries t.
Proof.
  unfold matching.
  apply (list_elem_of_filter (fun x => KEY_COMPARE t (k x) key = true)).
Qed.

Lemma matching_nil (t : HASH_TABLE) (key : HASH_KEY) :
  matching t key = [] <-> forall x, x ∈ entries t -> KEY_COMPARE t (k x) key = false.
Proof.
  split.
  - intros H x Hx. destruct (KEY_COMPARE t (k x) key) eqn:Hc; [|reflexivity].
    assert (x ∈ matching t key) as Hm by (apply matching_elem; auto).
    rewrite H in Hm. apply elem_of_nil in Hm. contradiction.
  - intros H. destruct (matching t key) as [|x l] eqn:Hm; [reflexivity|].
    assert (x ∈ matching t key) as Hx by (rewrite Hm; left).
    apply matching_elem in Hx as [Hc Hx]. rewrite (H x Hx) in Hc. discriminate.
Qed.

(** [matching] only depends on the entries up to their order. *)
Lemma matching_perm (t t' : HASH_TABLE) (key : HASH_KEY) :
  same_strategy t t' -> entries t' ≡ₚ entries t -> matching t' key ≡ₚ matching t key.
Proof.
  intros Hs Hp. unfold matching. rewrite Hp.
  erewrite list_filter_iff; [reflexivity|].
  intros b. simpl. rewrite (KEY_COMPARE_strategy t t' _ _ Hs). reflexivity.
Qed.

(** ** Retrieve *)

Lemma Retrieve_chain (t : HASH_TABLE) (key : HASH_KEY) :
  wf t ->
  exists chain, ppBucketTable t !! Z.to_nat (key_index t key (uSize t)) = Some chain /\
    HASH_Retrieve_Extended t key
    = Ok (t, match chain_find t key chain with Some b => v b | None => 0 end).
Proof.
  intros Hv. destruct Hv as [Hsz Hlen _ Href].
  pose proof (key_index_range t key (uSize t) Hsz) as Hr.
  destruct (slot_in_range (ppBucketTable t) (key_index t key (uSize t))) as (chain & Hc & Hsl);
    [lia|].
  exists chain. split; [exact Hc|].
  unfold HASH_Retrieve_Extended, KEY_TO_INDEX.
  assert (same_strategy (_inc_ref t) t) as Hs by (repeat split).
  change (uSize (_inc_ref t)) with (uSize t).
  change (ppBucketTable (_inc_ref t)) with (ppBucketTable t).
  destruct (Z.eqb_spec (uSize t) 0); [lia|]. simpl.
  rewrite (key_index_strategy _ _ _ _ Hs), Hsl. simpl.
  rewrite (chain_find_strategy _ _ _ _ Hs), (guard_round_trip t Href).
  destruct (chain_find t key chain); reflexivity.
Qed.

(** A key with a single matching entry, hashed as that entry is, retrieves
    the value of that entry. *)
Lemma Retrieve_matching (t : HASH_TABLE) (key : HASH_KEY) (b : BUCKET) :
  wf t -> matching t key ≡ₚ [b] ->
  key_index t (k b) (uSize t) = key_index t key (uSize t) ->
  HASH_Retrieve_Extended t key = Ok (t, v b).
Proof.
  intros Hv Hm Hidx. destruct (Retrieve_chain t key Hv) as (chain & Hc & ->).
  apply Permutation_singleton_r in Hm.
  assert (b ∈ matching t key) as Hb by (rewrite Hm; left).
  apply matching_elem in Hb as [Hcmp Hb].
  apply entries_slot in Hb as (i & c & Hi & Hbc).
  pose proof (wf_slots t Hv i c b Hi Hbc) as Hslot.
  assert (c = chain) as ->.
  { rewrite Hidx in Hslot. rewrite Hslot, Nat2Z.id in Hc. congruence. }
  destruct (chain_find_is_Some t key chain b Hbc Hcmp) as [x Hx]. rewrite Hx.
  apply chain_find_Some in Hx as [Hxc Hxk].
  assert (x ∈ matching t key) as Hxm.
  { apply matching_elem. split; [exact Hxk|]. apply entries_slot. eauto. }
  rewrite Hm in Hxm. apply list_elem_of_singleton in Hxm as ->. reflexivity.
Qed.

(** A key with some matching entry, hashed as that entry is, retrieves the
    value of a matching entry. *)
Lemma Retrieve_found (t : HASH_TABLE) (key : HASH_KEY) (b : BUCKET) :
  wf t -> b ∈ entries t -> KEY_COMPARE t (k b) key = true ->
  key_index t (k b) (uSize t) = key_index t key (uSize t) ->
  exists b', b' ∈ entries t /\ KEY_COMPARE t (k b') key = true /\
             HASH_Retrieve_Extended t key = Ok (t, v b').
Proof.
  intros Hv Hb Hcmp Hidx. destruct (Retrieve_chain t key Hv) as (chain & Hc & ->).
  apply entries_slot in Hb as (i & c & Hi & Hbc).
  pose proof (wf_slots t Hv i c b Hi Hbc) as Hslot.
  assert (c = chain) as ->.
  { rewrite Hidx in Hslot. rewrite Hslot, Nat2Z.id in Hc. congruence. }
  destruct (chain_find_is_Some t key chain b Hbc Hcmp) as [x Hx]. rewrite Hx.
  apply chain_find_Some in Hx as [Hxc Hxk].
  exists x. split; [apply entries_slot; eauto|]. auto.
Qed.

(** A key without matching entry retrieves the sentinel. *)
Lemma Retrieve_absent (t : HASH_TABLE) (key : HASH_KEY) :
  wf t -> matching t key = [] -> HASH_Retrieve_Extended t key = Ok (t, 0).
Proof.
  intros Hv Hm. destruct (Retrieve_chain t key Hv) as (chain & Hc & ->).
  rewrite matching_nil in Hm.
  destruct (chain_find t key chain) as [x|] eqn:Hx; [|reflexivity].
  apply chain_find_Some in Hx as [Hxc Hxk].
  rewrite Hm in Hxk; [discriminate|]. apply entries_slot. eauto.
Qed.

(** ** Insert *)

Lemma dec_ref_inv (t t' : HASH_TABLE) :
  _dec_ref t = Ok t' -> hRefCount t = 1 /\ t' = set_hRefCount t 0.
Proof.
  unfold _dec_ref. destruct (Z.eqb_spec (hRefCount t) 1) as [H|]; [|discriminate].
  intros [= <-]. rewrite H. auto.
Qed.

Lemma Insert_inv (allocTable : bool) (t : HASH_TABLE) (key : HASH_KEY) (val : Z)
    (r : HASH_TABLE * bool) :
  length (ppBucketTable t) = Z.to_nat (uSize t) ->
  HASH_Insert_Extended true allocTable t key val = Ok r ->
  snd r = true /\ inserted allocTable t (fst r) (new_bucket t key val).
Proof.
  intros Hlen. unfold HASH_Insert_Extended. simpl negb. cbv iota.
  change (uKeySize (_inc_ref t)) with (uKeySize t).
  change (ppBucketTable (_inc_ref t)) with (ppBucketTable t).
  change (uSize (_inc_ref t)) with (uSize t).
  fold (new_bucket t key val). set (nb := new_bucket t key val).
  destruct (_ChainInsert (_inc_ref t) nb (ppBucketTable t) (uSize t)) as [tbl1| |] eqn:Hci;
    simpl; try discriminate.
  apply ChainInsert_inv in Hci as (Hnz & chain & Hlook & ->).
  assert (same_strategy (_inc_ref t) t) as Hs by (repeat split).
  rewrite (key_index_strategy _ _ _ _ Hs) in Hlook |- *.
  set (i := Z.to_nat (key_index t (k nb) (uSize t))) in *.
  set (t1 := set_uCount (set_ppBucketTable (_inc_ref t) (<[i := nb :: chain]> (ppBucketTable t)))
               (wrap32 (uCount t + 1))).
  change (wrap32 (Z.shiftl (wrap32 (uCount t + 1)) 1) >? uSize t) with (grows t).
  assert (entries t1 ≡ₚ nb :: entries t) as Hent1.
  { apply concat_insert_cons. exact Hlook. }
  assert (length (ppBucketTable t1) = Z.to_nat (uSize t1)) as Hlen1.
  { simpl. rewrite length_insert. exact Hlen. }
  assert (forall t2, (t2 = t1 /\ (grows t && allocTable = false
                                  \/ wrap32 (Z.shiftl (uSize t) 1) = uSize t)) \/
                     (grows t && allocTable = true /\
                      wrap32 (Z.shiftl (uSize t) 1) <> uSize t /\
                      resized t1 t2 (wrap32 (Z.shiftl (uSize t) 1))) ->
                     _dec_ref t2 = Ok (fst r) ->
                     inserted allocTable t (fst r) nb) as Hfin.
  { intros t2 Hcase Hd. apply dec_ref_inv in Hd as [_ ->].
    destruct Hcase as [[-> Hno]|(Hg & Hne & Hr)].
    - constructor; simpl; auto.
      + destruct Hno as [->| ->]; [reflexivity|]. destruct (grows t && allocTable); reflexivity.
      + intros _. exists chain. auto.
      + intros Hpos _ Hok. apply (slots_ok_strategy t); [repeat split|].
        apply slots_ok_insert; assumption.
    - destruct Hr as [Hrs Hrsz Hrc Hrm Hrr Hrl Hre Hrsl Hrnz].
      constructor; simpl; auto.
      + rewrite Hrsz. exact Hrl.
      + change (entries t2 ≡ₚ nb :: entries t). rewrite Hre. exact Hent1.
      + rewrite Hg. exact Hrsz.
      + intros Heq. congruence.
      + intros _ Hpos _. rewrite Hrsz in Hpos |- *.
        eapply slots_ok_strategy; [|apply Hrsl; exact Hpos]. repeat split.
      + intros _. rewrite Hrsz.
        assert (wrap32 (Z.shiftl (uSize t) 1) <> 0) as Hnz2.
        { apply Hrnz. intros Hnil. rewrite Hnil in Hent1.
          apply Permutation_nil_l in Hent1. discriminate. }
        pose proof (wrap32_range (Z.shiftl (uSize t) 1)). lia. }
  destruct (grows t) eqn:Hg; simpl.
  - destruct (_Resize allocTable t1 (wrap32 (Z.shiftl (uSize t) 1))) as [r1| |] eqn:Hrz;
      simpl; try discriminate.
    destruct (_dec_ref (fst r1)) as [t3| |] eqn:Hd; simpl; try discriminate.
    intros [= <-]. split; [reflexivity|]. simpl.
    apply (Hfin (fst r1)); [|exact Hd].
    apply (Resize_inv _ _ _ _ Hlen1) in Hrz as [[-> Hc]|(Hne & -> & _ & Hr)].
    + left. split; [reflexivity|]. destruct Hc as [Hc| ->]; [right; exact Hc | left; reflexivity].
    + right. auto.
  - destruct (_dec_ref t1) as [t3| |] eqn:Hd; simpl; try discriminate.
    intros [= <-]. split; [reflexivity|]. simpl.
    apply (Hfin t1); [|exact Hd]. left. auto.
Qed.

Lemma wrap32_double_pos (n : Z) : 0 < n < 2 ^ 32 -> n <> 2 ^ 31 -> 0 < wrap32 (Z.shiftl n 1).
Proof.
  intros Hn Hne. rewrite shiftl_1. unfold wrap32.
  destruct (Z_lt_le_dec (2 * n) (2 ^ 32)) as [Hlt|Hge].
  - rewrite Z.mod_small by lia. lia.
  - replace (2 * n) with ((2 * n - 2 ^ 32) + 1 * 2 ^ 32) by lia.
    rewrite Z.mod_add by lia. rewrite Z.mod_small by lia. lia.
Qed.

(** An insert that obtains its bucket completes, unless doubling a table of
    2^31 slots wraps its size to zero. *)
Lemma Insert_ok (allocTable : bool) (t : HASH_TABLE) (key : HASH_KEY) (val : Z) :
  valid t -> (grows t && allocTable = true -> uSize t <> 2 ^ 31) ->
  exists r, HASH_Insert_Extended true allocTable t key val = Ok r.
Proof.
  intros Hv Hne. destruct Hv as [Hsz _ Hlen _ _ _ Href].
  unfold HASH_Insert_Extended. simpl negb. cbv iota.
  change (uKeySize (_inc_ref t)) with (uKeySize t).
  change (ppBucketTable (_inc_ref t)) with (ppBucketTable t).
  change (uSize (_inc_ref t)) with (uSize t).
  set (nb := mkBUCKET BUCKET_SIG val (OSCachedMemCopy key (uKeySize t))).
  destruct (ChainInsert_ok (_inc_ref t) nb (ppBucketTable t) (uSize t)) as (chain & _ & ->);
    [lia | exact Hlen |].
  simpl.
  set (i := Z.to_nat (key_index (_inc_ref t) (OSCachedMemCopy key (uKeySize t)) (uSize t))).
  set (t1 := set_uCount (set_ppBucketTable (_inc_ref t) (<[i := nb :: chain]> (ppBucketTable t)))
               (wrap32 (uCount t + 1))).
  assert (length (ppBucketTable t1) = Z.to_nat (uSize t1)) as Hlen1.
  { simpl. rewrite length_insert. exact Hlen. }
  assert (hRefCount t1 = 1) as Href1 by (simpl; rewrite Href; reflexivity).
  change (wrap32 (Z.shiftl (wrap32 (uCount t + 1)) 1) >? uSize t) with (grows t).
  destruct (grows t).
  - assert (exists r1, _Resize allocTable t1 (wrap32 (Z.shiftl (uSize t) 1)) = Ok r1)
      as [r1 Hr1].
    { destruct allocTable.
      - apply (Resize_ok true t1 _ Hlen1). apply wrap32_double_pos; auto.
      - unfold _Resize. destruct (wrap32 (Z.shiftl (uSize t) 1) =? uSize t1); simpl; eauto. }
    rewrite Hr1. simpl.
    assert (hRefCount (fst r1) = 1) as Href2.
    { apply (Resize_inv _ _ _ _ Hlen1) in Hr1 as [[-> _]|(_ & _ & _ & Hr)]; [exact Href1|].
      rewrite (resized_ref _ _ _ Hr). exact Href1. }
    unfold _dec_ref. rewrite Href2. simpl. eauto.
  - simpl. unfold _dec_ref. rewrite Href1. simpl. eauto.
Qed.

(** Validity is kept by an insert as long as the 32-bit size and count do
    not wrap. *)
Lemma Insert_valid (allocTable : bool) (t : HASH_TABLE) (key : HASH_KEY) (val : Z)
    (r : HASH_TABLE * bool) :
  valid t -> uSize t < 2 ^ 31 -> uCount t + 1 < 2 ^ 32 ->
  HASH_Insert_Extended true allocTable t key val = Ok r -> valid (fst r).
Proof.
  intros Hv Hsz31 Hc Hins.
  destruct (Insert_inv _ _ _ _ _ (valid_len t Hv) Hins) as [_ Hi].
  destruct Hv as [Hsz Hmin Hlen Hcnt Hc32 Hslots Href].
  destruct Hi as [His Hic Him Hir Hil Hie Hisz Hit Hisl _].
  assert (wrap32 (Z.shiftl (uSize t) 1) = 2 * uSize t) as Hdbl.
  { rewrite shiftl_1. apply wrap32_small. lia. }
  assert (uSize t <= uSize (fst r) < 2 ^ 32) as Hsz'.
  { rewrite Hisz. destruct (grows t && allocTable); lia. }
  constructor; try lia; auto.
  - rewrite Hic, wrap32_small by lia. rewrite Hie. simpl. lia.
  - rewrite Hic, wrap32_small by lia. lia.
  - apply Hisl; [lia | lia | exact Hslots].
Qed.

(** ** Remove *)

Lemma slots_ok_unlink (t : HASH_TABLE) (size : Z) (tbl : list (list BUCKET)) (i : nat)
    (chain chain' : list BUCKET) :
  slots_ok t size tbl -> tbl !! i = Some chain -> (forall x, x ∈ chain' -> x ∈ chain) ->
  slots_ok t size (<[i := chain']> tbl).
Proof.
  intros Hok Hi Hsub j c x Hj Hx.
  destruct (decide (i = j)) as [<-|Hne].
  - rewrite list_lookup_insert_eq in Hj by (eapply lookup_lt_Some; eauto).
    injection Hj as <-. eapply Hok; eauto.
  - rewrite list_lookup_insert_ne in Hj by exact Hne. eapply Hok; eauto.
Qed.

Lemma Remove_inv (allocTable : bool) (t : HASH_TABLE) (key : HASH_KEY) (r : HASH_TABLE * Z) :
  length (ppBucketTable t) = Z.to_nat (uSize t) ->
  HASH_Remove_Extended allocTable t key = Ok r ->
  exists chain, ppBucketTable t !! Z.to_nat (key_index t key (uSize t)) = Some chain /\
    match chain_find t key chain with
    | Some b => snd r = v b /\ removed allocTable t (fst r) b
    | None => snd r = 0 /\ fst r = set_hRefCount t 0
    end.
Proof.
  intros Hlen. unfold HASH_Remove_Extended, KEY_TO_INDEX.
  change (ppBucketTable (_inc_ref t)) with (ppBucketTable t).
  change (uSize (_inc_ref t)) with (uSize t).
  assert (same_strategy (_inc_ref t) t) as Hs by (repeat split).
  destruct (Z.eqb_spec (uSize t) 0) as [|Hnz]; simpl; [discriminate|].
  rewrite (key_index_strategy _ _ _ _ Hs).
  destruct (slot (ppBucketTable t) (key_index t key (uSize t))) as [chain| |] eqn:Hsl;
    simpl; try discriminate.
  apply slot_Ok in Hsl. rewrite (chain_unlink_strategy _ _ _ _ Hs).
  intros H. exists chain. split; [exact Hsl|].
  set (i := Z.to_nat (key_index t key (uSize t))) in *.
  destruct (chain_unlink t key chain) as [[b chain']|] eqn:Hu.
  - apply chain_unlink_Some in Hu as (-> & pre & post & Hch & Hch').
    set (t1 := set_uCount (set_ppBucketTable (_inc_ref t) (<[i := chain']> (ppBucketTable t)))
                 (wrap32 (uCount t - 1))) in *.
    change (uSize t1) with (uSize t) in H. change (uCount t1) with (wrap32 (uCount t - 1)) in H.
    change (uMinimumSize t1) with (uMinimumSize t) in H.
    change ((uSize t >? wrap32 (Z.shiftl (wrap32 (uCount t - 1)) 2))
            && (uSize t >? uMinimumSize t)) with (shrinks t) in H.
    assert (entries t ≡ₚ b :: entries t1) as Hent1.
    { apply (concat_insert_unlink _ i chain); [exact Hsl|].
      rewrite Hch, Hch'. symmetry. apply Permutation_middle. }
    assert (length (ppBucketTable t1) = Z.to_nat (uSize t1)) as Hlen1.
    { simpl. rewrite length_insert. exact Hlen. }
    assert (forall x, x ∈ chain' -> x ∈ chain) as Hsub.
    { intros x. rewrite Hch, Hch', !elem_of_app, elem_of_cons. tauto. }
    set (n := PRIVATE_MAX (Z.shiftr (uSize t) 1) (uMinimumSize t)) in *.
    assert (forall t2, (t2 = t1 /\ (shrinks t && allocTable = false \/ n = uSize t)) \/
                       (shrinks t && allocTable = true /\ n <> uSize t /\ resized t1 t2 n) ->
                       _dec_ref t2 = Ok (fst r) -> removed allocTable t (fst r) b) as Hfin.
    { intros t2 Hcase Hd. apply dec_ref_inv in Hd as [_ ->].
      destruct Hcase as [[-> Hno]|(Hg & Hne & Hr)].
      - constructor; simpl; auto.
        + destruct Hno as [->|Hn]; [reflexivity|].
          fold n. rewrite Hn. destruct (shrinks t && allocTable); reflexivity.
        + intros _ _ Hok. apply (slots_ok_strategy t); [repeat split|].
          eapply slots_ok_unlink; eauto.
      - destruct Hr as [Hrs Hrsz Hrc Hrm Hrr Hrl Hre Hrsl _].
        constructor; simpl; auto.
        + rewrite Hrsz. exact Hrl.
        + change (entries t ≡ₚ b :: entries t2). rewrite Hre. exact Hent1.
        + rewrite Hg. exact Hrsz.
        + intros _ Hpos _. rewrite Hrsz in Hpos |- *.
          eapply slots_ok_strategy; [|apply Hrsl; exact Hpos]. repeat split. }
    destruct (shrinks t) eqn:Hg; simpl in H.
    + destruct (_Resize allocTable t1 n) as [r1| |] eqn:Hrz; simpl in H; try discriminate.
      destruct (_dec_ref (fst r1)) as [t3| |] eqn:Hd; simpl in H; try discriminate.
      injection H as <-. split; [reflexivity|]. simpl.
      apply (Hfin (fst r1)); [|exact Hd].
      apply (Resize_inv _ _ _ _ Hlen1) in Hrz as [[-> Hc]|(Hne & -> & _ & Hr)].
      * left. split; [reflexivity|]. destruct Hc as [Hc| ->]; [right; exact Hc | left; reflexivity].
      * right. auto.
    + destruct (_dec_ref t1) as [t3| |] eqn:Hd; simpl in H; try discriminate.
      injection H as <-. split; [reflexivity|]. simpl.
      apply (Hfin t1); [|exact Hd]. left. auto.
  - apply chain_unlink_None in Hu. rewrite Hu.
    destruct (_dec_ref (_inc_ref t)) as [t3| |] eqn:Hd; simpl in H; try discriminate.
    injection H as <-. apply dec_ref_inv in Hd as [_ ->]. auto.
Qed.

Lemma set_hRefCount_id (t : HASH_TABLE) : hRefCount t = 0 -> set_hRefCount t 0 = t.
Proof. destruct t; simpl. intros ->. reflexivity. Qed.

(** On a valid table HASH_Remove_Extended always completes. *)
Lemma Remove_ok (allocTable : bool) (t : HASH_TABLE) (key : HASH_KEY) :
  valid t -> exists r, HASH_Remove_Extended allocTable t key = Ok r.
Proof.
  intros Hv. destruct Hv as [Hsz Hmin Hlen _ _ _ Href].
  unfold HASH_Remove_Extended, KEY_TO_INDEX.
  change (ppBucketTable (_inc_ref t)) with (ppBucketTable t).
  change (uSize (_inc_ref t)) with (uSize t).
  destruct (Z.eqb_spec (uSize t) 0); [lia|]. simpl.
  pose proof (key_index_range (_inc_ref t) key (uSize t) (proj1 Hsz)) as Hr.
  destruct (slot_in_range (ppBucketTable t) (key_index (_inc_ref t) key (uSize t)))
    as (chain & _ & ->); [lia|].
  simpl. set (i := Z.to_nat (key_index (_inc_ref t) key (uSize t))).
  destruct (chain_unlink (_inc_ref t) key chain) as [[b chain']|].
  - set (t1 := set_uCount (set_ppBucketTable (_inc_ref t) (<[i := chain']> (ppBucketTable t)))
                 (wrap32 (uCount t - 1))).
    assert (length (ppBucketTable t1) = Z.to_nat (uSize t1)) as Hlen1.
    { simpl. rewrite length_insert. exact Hlen. }
    assert (hRefCount t1 = 1) as Href1 by (simpl; rewrite Href; reflexivity).
    change (uSize t1) with (uSize t). change (uMinimumSize t1) with (uMinimumSize t).
    change (uCount t1) with (wrap32 (uCount t - 1)).
    destruct ((uSize t >? wrap32 (Z.shiftl (wrap32 (uCount t - 1)) 2))
              && (uSize t >? uMinimumSize t)).
    + destruct (Resize_ok allocTable t1 (PRIVATE_MAX (Z.shiftr (uSize t) 1) (uMinimumSize t))
                  Hlen1) as [r1 Hr1].
      { rewrite PRIVATE_MAX_max. lia. }
      rewrite Hr1. simpl.
      assert (hRefCount (fst r1) = 1) as Href2.
      { apply (Resize_inv _ _ _ _ Hlen1) in Hr1 as [[-> _]|(_ & _ & _ & Hrz)]; [exact Href1|].
        rewrite (resized_ref _ _ _ Hrz). exact Href1. }
      unfold _dec_ref. rewrite Href2. simpl. eauto.
    + simpl. unfold _dec_ref. rewrite Href1. simpl. eauto.
  - rewrite (guard_round_trip t Href). simpl. eauto.
Qed.

(** Validity is kept by every remove. *)
Lemma Remove_valid (allocTable : bool) (t : HASH_TABLE) (key : HASH_KEY) (r : HASH_TABLE * Z) :
  valid t -> HASH_Remove_Extended allocTable t key = Ok r -> valid (fst r).
Proof.
  intros Hv Hrem.
  destruct (Remove_inv _ _ _ _ (valid_len t Hv) Hrem) as (chain & Hc & Hcase).
  destruct (chain_find t key chain) as [b|].
  - destruct Hcase as [_ Hr].
    destruct Hv as [Hsz Hmin Hlen Hcnt Hc32 Hslots Href].
    destruct Hr as [Hrs Hrc Hrm Hrr Hrl Hre Hrsz Hrsl].
    apply Permutation_length in Hre. simpl in Hre.
    assert (uMinimumSize t <= uSize (fst r) <= uSize t) as Hsz'.
    { rewrite Hrsz. destruct (shrinks t && allocTable); [|lia].
      rewrite PRIVATE_MAX_max, shiftr_1.
      assert (uSize t / 2 <= uSize t) by (apply Z.div_le_upper_bound; lia). lia. }
    constructor; try lia; auto.
    + rewrite Hrc, wrap32_small; lia.
    + rewrite Hrc, wrap32_small; lia.
    + apply Hrsl; [lia | lia | exact Hslots].
  - destruct Hcase as [_ ->]. rewrite (set_hRefCount_id t (valid_ref t Hv)). exact Hv.
Qed.

(** Lookups keep working after any insert that returns. *)
Lemma Insert_wf (allocTable : bool) (t : HASH_TABLE) (key : HASH_KEY) (val : Z)
    (r : HASH_TABLE * bool) :
  wf t -> HASH_Insert_Extended true allocTable t key val = Ok r -> wf (fst r).
Proof.
  intros [Hsz Hlen Hsl Href] Hins.
  destruct (Insert_inv _ _ _ _ _ Hlen Hins) as [_ Hi].
  constructor.
  - apply (ins_pos _ _ _ _ Hi). exact Hsz.
  - apply (ins_len _ _ _ _ Hi).
  - apply (ins_slots _ _ _ _ Hi); [exact Hsz | | exact Hsl].
    apply (ins_pos _ _ _ _ Hi). exact Hsz.
  - apply (ins_ref _ _ _ _ Hi).
Qed.

(** The copy of a key of the table's key size is that key. *)
Lemma OSCachedMemCopy_sized (t : HASH_TABLE) (key : HASH_KEY) :
  key_sized t key -> OSCachedMemCopy key (uKeySize t) = key.
Proof.
  unfold key_sized, OSCachedMemCopy. intros <-. apply firstn_all.
Qed.

(** The entries matching a key, after one more bucket was linked. *)
Lemma matching_cons (t : HASH_TABLE) (key : HASH_KEY) (b : BUCKET) (l : list BUCKET) :
  filter (fun x => KEY_COMPARE t (k x) key = true) (b :: l)
  = (if KEY_COMPARE t (k b) key then [b] else [])
    ++ filter (fun x => KEY_COMPARE t (k x) key = true) l.
Proof.
  rewrite filter_cons. destruct (KEY_COMPARE t (k b) key); simpl.
  - destruct (decide (true = true)); [reflexivity|congruence].
  - destruct (decide (false = true)); [discriminate|reflexivity].
Qed.

Lemma matching_inserted (allocTable : bool) (t t' : HASH_TABLE) (nb : BUCKET) (key : HASH_KEY) :
  inserted allocTable t t' nb ->
  matching t' key ≡ₚ (if KEY_COMPARE t (k nb) key then [nb] else []) ++ matching t key.
Proof.
  intros Hi. unfold matching at 2. rewrite <- matching_cons.
  unfold matching. rewrite (ins_entries _ _ _ _ Hi).
  rewrite (list_filter_iff (fun x => KEY_COMPARE t' (k x) key = true)
             (fun x => KEY_COMPARE t (k x) key = true)); [reflexivity|].
  intros x. rewrite (KEY_COMPARE_strategy t t' _ _ (ins_strategy _ _ _ _ Hi)). reflexivity.
Qed.

(** The entries matching a key, after one bucket was unlinked. *)
Lemma matching_removed (allocTable : bool) (t t' : HASH_TABLE) (b : BUCKET) (key : HASH_KEY) :
  removed allocTable t t' b ->
  matching t key ≡ₚ (if KEY_COMPARE t (k b) key then [b] else []) ++ matching t' key.
Proof.
  intros Hr. unfold matching. rewrite (rem_entries _ _ _ _ Hr), matching_cons.
  rewrite (list_filter_iff (fun x => KEY_COMPARE t' (k x) key = true)
             (fun x => KEY_COMPARE t (k x) key = true)); [reflexivity|].
  intros x. rewrite (KEY_COMPARE_strategy t t' _ _ (rem_strategy _ _ _ _ Hr)). reflexivity.
Qed.

(** ** Example tables *)

Lemma table4_created : HASH_Create true true 4 = Some table4.
Proof. reflexivity. Qed.

Lemma table4_one_reached : run table4 [OpInsert true true [2] 5] = Ok table4_one.
Proof. reflexivity. Qed.

Lemma table4_two_reached :
  run table4 [OpInsert true true [1] 10; OpInsert true true [2] 5] = Ok table4_two.
Proof. reflexivity. Qed.

Lemma table4_dup_reached :
  run table4 [OpInsert true true [1] 10; OpInsert true true [1] 20] = Ok table4_dup.
Proof. reflexivity. Qed.

Lemma table1_one_reached :
  (match HASH_Create true true 1 with
   | Some t => run t [OpInsert true true [1] 10]
   | None => Undefined
   end) = Ok table1_one.
Proof. reflexivity. Qed.

Lemma table4_three_reached :
  run table4 [OpInsert true true [1] 10; OpInsert true true [2] 5; OpInsert true true [3] 7]
  = Ok table4_three.
Proof. reflexivity. Qed.

Lemma table4_valid : valid table4.
Proof. apply validb_sound. vm_compute. reflexivity. Qed.

Lemma table4_one_valid : valid table4_one.
Proof. apply validb_sound. vm_compute. reflexivity. Qed.

Lemma table4_two_valid : valid table4_two.
Proof. apply validb_sound. vm_compute. reflexivity. Qed.

Lemma table4_dup_valid : valid table4_dup.
Proof. apply validb_sound. vm_compute. reflexivity. Qed.


Lemma table4_three_valid : valid table4_three.
Proof. apply validb_sound. vm_compute. reflexivity. Qed.

(** ** Creation and the default strategy *)

Lemma Create_valid (uInitialLen uKeySize : Z) (hashFunc : option HASH_FUNC)
    (keyComp : option HASH_KEY_COMP) (t : HASH_TABLE) :
  HASH_Create_Extended true true uInitialLen uKeySize hashFunc keyComp = Some t ->
  0 <= uInitialLen < 2 ^ 32 -> valid t.
Proof.
  unfold HASH_Create_Extended.
  destruct hashFunc as [hf|]; [|discriminate]. destruct keyComp as [kc|]; [|discriminate].
  destruct (Z.eqb_spec uInitialLen 0) as [|Hnz]; simpl; [discriminate|].
  destruct (uKeySize =? 0); simpl; [discriminate|].
  intros [= <-] Hr. constructor; simpl; try lia.
  - apply length_replicate.
  - unfold entries. simpl. rewrite concat_replicate_nil. reflexivity.
  - apply slots_ok_replicate.
Qed.

Lemma key_words_eq_refl (n : nat) (key : HASH_KEY) :
  (n <= length key)%nat -> key_words_eq n key key = true.
Proof.
  revert key. induction n as [|n IH]; intros key Hn; simpl; [reflexivity|].
  destruct key as [|w key]; simpl in Hn; [lia|].
  rewrite Z.eqb_refl. apply IH. lia.
Qed.

(** The default comparison accepts a key of the table's key size as equal to
    itself. *)
Lemma HASH_Key_Comp_Default_refl (t : HASH_TABLE) (key : HASH_KEY) :
  pfnKeyComp t = HASH_Key_Comp_Default -> key_sized t key -> KEY_COMPARE t key key = true.
Proof.
  intros Hc Hk. unfold KEY_COMPARE, HASH_Key_Comp_Default. rewrite Hc.
  apply key_words_eq_refl. unfold key_sized in Hk. unfold HASH_Key_Comp_Default. lia.
Qed.

(** * The claims *)

(** ** Insert then retrieve *)




(** ** Inserting a key that is already present *)




(** ** Growth *)




(** ** Remove *)

Lemma finds_removed (allocTable : bool) (t : HASH_TABLE) (key : HASH_KEY) (b : BUCKET) :
  valid t -> finds t key b ->
  exists t', HASH_Remove_Extended allocTable t key = Ok (t', v b) /\
             removed allocTable t t' b /\ valid t' /\ 1 <= uCount t /\
             KEY_COMPARE t (k b) key = true.
Proof.
  intros Hv (chain & Hlook & Hfind).
  destruct (Remove_ok allocTable t key Hv) as [[t' val] Hrem].
  pose proof (Remove_valid _ _ _ _ Hv Hrem) as Hv'. simpl in Hv'.
  destruct (Remove_inv _ _ _ _ (valid_len t Hv) Hrem) as (chain' & Hlook' & Hcase).
  rewrite Hlook in Hlook'. injection Hlook' as <-. rewrite Hfind in Hcase.
  simpl in Hcase. destruct Hcase as [-> Hr].
  exists t'. split; [exact Hrem|]. split; [exact Hr|]. split; [exact Hv'|]. split.
  - pose proof (Permutation_length (rem_entries _ _ _ _ Hr)) as Hl. simpl in Hl.
    rewrite (valid_count t Hv). lia.
  - apply chain_find_Some in Hfind as [_ Hc]. exact Hc.
Qed.




(** ** Shrinking *)

(** C3. On a valid table of size [S], a remove that finds its key in an
    entry and leaves S > count*4 and S > minimumSize attempts, during that
    same remove, to resize the table to max(S/2, minimumSize): that is the
    size when the new table is allocated, [S] otherwise; remove returns the
    value either way, the table has lost that entry only, every remaining
    entry has its key retrieved from an entry matching it (so from itself
    when it is the only one), and the size is not below the minimum. *)
Theorem remove_shrinks (allocTable : bool) (t : HASH_TABLE) (key : HASH_KEY) (b : BUCKET) :
  valid t -> reflexive_keys t -> finds t key b ->
  uSize t > (uCount t - 1) * 4 -> uSize t > uMinimumSize t ->
  exists t', HASH_Remove_Extended allocTable t key = Ok (t', v b) /\
    uSize t' = (if allocTable then Z.max (uSize t / 2) (uMinimumSize t) else uSize t) /\
    uMinimumSize t' = uMinimumSize t /\ uMinimumSize t' <= uSize t' /\
    entries t ≡ₚ b :: entries t' /\
    forall x, x ∈ entries t' ->
      exists x', x' ∈ matching t' (k x) /\
                 HASH_Retrieve_Extended t' (k x) = Ok (t', v x').
Proof.
  intros Hv Hrefl Hf Hc4 Hmin.
  destruct (finds_removed allocTable t key b Hv Hf) as (t' & Hrem & Hr & Hv' & Hc1 & _).
  exists t'. split; [exact Hrem|].
  pose proof (valid_size t Hv) as Hsz. pose proof (valid_count32 t Hv) as Hc32.
  assert (shrinks t = true) as Hs.
  { unfold shrinks. rewrite (wrap32_small (uCount t - 1)) by lia.
    rewrite shiftl_2, wrap32_small by lia.
    apply andb_true_iff. split; apply Z.gtb_lt; lia. }
  split.
  { rewrite (rem_size _ _ _ _ Hr), Hs. simpl. destruct allocTable; [|reflexivity].
    rewrite PRIVATE_MAX_max, shiftr_1. reflexivity. }
  split; [exact (rem_min _ _ _ _ Hr)|].
  split; [exact (proj2 (valid_min t' Hv'))|].
  split; [exact (rem_entries _ _ _ _ Hr)|].
  intros x Hx.
  assert (KEY_COMPARE t' (k x) (k x) = true) as Hxx.
  { rewrite <- (KEY_COMPARE_strategy t t' _ _ (rem_strategy _ _ _ _ Hr)).
    unfold reflexive_keys in Hrefl. rewrite Forall_forall in Hrefl. apply Hrefl.
    rewrite (rem_entries _ _ _ _ Hr). right. exact Hx. }
  destruct (Retrieve_found t' (k x) x (valid_wf t' Hv') Hx Hxx eq_refl) as (x' & Hx' & Hc & Hret).
  exists x'. split; [|exact Hret]. apply matching_elem. auto.
Qed.

Lemma remove_shrinks_witness :
  exists t', HASH_Remove_Extended true table8_two [2] = Ok (t', v (bucket 2 5)) /\
    uSize t' = Z.max (uSize table8_two / 2) (uMinimumSize table8_two) /\
    uMinimumSize t' = uMinimumSize table8_two /\ uMinimumSize t' <= uSize t' /\
    entries table8_two ≡ₚ bucket 2 5 :: entries t' /\
    forall x, x ∈ entries t' ->
      exists x', x' ∈ matching t' (k x) /\
                 HASH_Retrieve_Extended t' (k x) = Ok (t', v x').
Proof.
  apply (remove_shrinks true table8_two [2] (bucket 2 5)).
  - apply validb_sound. reflexivity.
  - repeat constructor.
  - exists [bucket 1 10; bucket 2 5]. split; reflexivity.
  - reflexivity.
  - reflexivity.
Defined.

(** ** The count *)









(** ** Resize *)

(** C8. Resize to the current size returns success and the table as it was;
    and when the allocation of the new slot array fails, resize returns the
    table as it was, size, slot array and entries, and reports failure
    (unless the new size was the current one, where nothing is allocated). *)
Theorem resize_unchanged (alloc : bool) (t : HASH_TABLE) (uNewSize : Z) :
  _Resize alloc t (uSize t) = Ok (t, true) /\
  _Resize false t uNewSize = Ok (t, uNewSize =? uSize t).
Proof.
  split; [apply Resize_same|].
  unfold _Resize. destruct (uNewSize =? uSize t); reflexivity.
Qed.

(** ** Iterate *)

Section IterateFacts.
Context {St : Type}.
Implicit Types (cb : HASH_pfnCallback St) (l : list BUCKET).

Lemma iterate_chain_app cb l1 l2 (s : St) :
  iterate_chain cb (l1 ++ l2) s
  = (let '(s1, e) := iterate_chain cb l1 s in
     if negb (e =? PVRSRV_OK) then (s1, e) else iterate_chain cb l2 s1).
Proof.
  revert s. induction l1 as [|b l1 IH]; intros s; simpl; [reflexivity|].
  destruct (cb s (hd 0 (k b)) (v b)) as [s1 e].
  destruct (negb (e =? PVRSRV_OK)) eqn:He.
  - rewrite He. reflexivity.
  - apply IH.
Qed.

Lemma iterate_slots_flat cb (tbl : list (list BUCKET)) (n i : nat) (s : St) :
  (i + n <= length tbl)%nat ->
  iterate_slots cb tbl n i s = Ok (iterate_chain cb (concat (take n (drop i tbl))) s).
Proof.
  revert i s. induction n as [|n IH]; intros i s Hl; simpl; [reflexivity|].
  destruct (slot_in_range tbl (Z.of_nat i)) as (chain & Hc & ->); [lia|].
  rewrite Nat2Z.id in Hc. simpl.
  rewrite (drop_S _ _ _ Hc). simpl. rewrite iterate_chain_app.
  destruct (iterate_chain cb chain s) as [s1 e].
  destruct (negb (e =? PVRSRV_OK)); [reflexivity|].
  apply IH. lia.
Qed.

Lemma Iterate_flat cb (t : HASH_TABLE) (s : St) :
  valid t ->
  HASH_Iterate t cb s
  = Ok (t, fst (iterate_chain cb (entries t) s), snd (iterate_chain cb (entries t) s)).
Proof.
  intros Hv. unfold HASH_Iterate.
  change (ppBucketTable (_inc_ref t)) with (ppBucketTable t).
  change (uSize (_inc_ref t)) with (uSize t).
  rewrite iterate_slots_flat by (rewrite (valid_len t Hv); lia).
  rewrite drop_0, <- (valid_len t Hv), firstn_all. simpl.
  rewrite (guard_round_trip t (valid_ref t Hv)). reflexivity.
Qed.

Lemma iterate_logged_ok cb l (s : St) (log : list (Z * Z)) :
  Forall (eq PVRSRV_OK) (statuses cb l s) ->
  exists s', iterate_chain (logged cb) l (s, log) = ((s', log ++ map visit_args l), PVRSRV_OK).
Proof.
  revert s log. induction l as [|b l IH]; intros s log Hall; simpl.
  - exists s. rewrite app_nil_r. reflexivity.
  - simpl in Hall. unfold logged at 1. simpl.
    destruct (cb s (hd 0 (k b)) (v b)) as [s1 e].
    apply Forall_cons in Hall as [<- Hall]. simpl.
    destruct (IH s1 (log ++ [(hd 0 (k b), v b)]) Hall) as [s' ->].
    exists s'. rewrite <- app_assoc. reflexivity.
Qed.

Lemma iterate_logged_stop cb l (s : St) (log : list (Z * Z))
    (pre rest : list PVRSRV_ERROR) (e : PVRSRV_ERROR) :
  statuses cb l s = pre ++ e :: rest -> Forall (eq PVRSRV_OK) pre -> e <> PVRSRV_OK ->
  exists s', iterate_chain (logged cb) l (s, log)
             = ((s', log ++ map visit_args (take (S (length pre)) l)), e).
Proof.
  revert s log pre. induction l as [|b l IH]; intros s log pre Hst Hpre He; simpl in Hst.
  - destruct pre; discriminate.
  - simpl. unfold logged at 1. simpl.
    destruct (cb s (hd 0 (k b)) (v b)) as [s1 e1].
    destruct pre as [|p pre]; simpl in Hst; injection Hst as -> Hst.
    + destruct (Z.eqb_spec e PVRSRV_OK); [contradiction|]. simpl.
      exists s1. reflexivity.
    + apply Forall_cons in Hpre as [<- Hpre]. simpl.
      destruct (IH s1 (log ++ [(hd 0 (k b), v b)]) pre Hst Hpre He) as [s' ->].
      exists s'. rewrite <- app_assoc. reflexivity.
Qed.
End IterateFacts.

(** C9. On a valid table, iterate calls the visitor on the live entries in
    slot and chain order, each at most once, and returns with the table
    unchanged: when every call returns success, the calls are exactly the
    entries of the table, their number is the count, and iterate returns
    success; when some call returns another status, the first such call is
    the last call made and its status is what iterate returns. *)
Theorem iterate_visits (St : Type) (cb : HASH_pfnCallback St) (t : HASH_TABLE) (s : St) :
  valid t ->
  exists (s' : St) (log : list (Z * Z)) (e : PVRSRV_ERROR),
    HASH_Iterate t (logged cb) (s, []) = Ok (t, (s', log), e) /\
    (Forall (eq PVRSRV_OK) (statuses cb (entries t) s) ->
       e = PVRSRV_OK /\ log = map visit_args (entries t) /\
       Z.of_nat (length log) = uCount t) /\
    (forall pre e' rest, statuses cb (entries t) s = pre ++ e' :: rest ->
       Forall (eq PVRSRV_OK) pre -> e' <> PVRSRV_OK ->
       e = e' /\ log = map visit_args (take (S (length pre)) (entries t))).
Proof.
  intros Hv. rewrite (Iterate_flat (logged cb) t (s, []) Hv).
  destruct (iterate_chain (logged cb) (entries t) (s, [])) as [[s' log] e] eqn:Hit.
  exists s', log, e. split; [reflexivity|]. split.
  - intros Hall. destruct (iterate_logged_ok cb (entries t) s [] Hall) as [s1 H1].
    rewrite H1 in Hit. injection Hit as <- <- <-.
    split; [reflexivity|]. split; [reflexivity|].
    simpl. rewrite length_map. symmetry. exact (valid_count t Hv).
  - intros pre e' rest Hst Hpre He.
    destruct (iterate_logged_stop cb (entries t) s [] pre rest e' Hst Hpre He) as [s1 H1].
    rewrite H1 in Hit. injection Hit as <- <- <-. split; reflexivity.
Qed.

Lemma iterate_visits_witness :
  exists (s' : Z) (log : list (Z * Z)) (e : PVRSRV_ERROR),
    HASH_Iterate table4_three (logged sum_until_5) (0, []) = Ok (table4_three, (s', log), e) /\
    (Forall (eq PVRSRV_OK) (statuses sum_until_5 (entries table4_three) 0) ->
       e = PVRSRV_OK /\ log = map visit_args (entries table4_three) /\
       Z.of_nat (length log) = uCount table4_three) /\
    (forall pre e' rest, statuses sum_until_5 (entries table4_three) 0 = pre ++ e' :: rest ->
       Forall (eq PVRSRV_OK) pre -> e' <> PVRSRV_OK ->
       e = e' /\ log = map visit_args (take (S (length pre)) (entries table4_three))).
Proof.
  apply (iterate_visits Z sum_until_5 table4_three 0).
  apply validb_sound. reflexivity.
Defined.

(** The walk of [table4_three] by [sum_until_5]: keys 3 and 1 are visited,
    key 2 holds the value 5 and ends the walk with status 7. *)
Example iterate_aborts :
  HASH_Iterate table4_three (logged sum_until_5) (0, [])
  = Ok (table4_three, (22, [(3, 7); (1, 10); (2, 5)]), 7).
Proof. reflexivity. Qed.

Example iterate_aborts_early :
  HASH_Iterate table4_two (logged sum_until_5) (0, [])
  = Ok (table4_two, (5, [(2, 5)]), 7).
Proof. reflexivity. Qed.

Example iterate_completes :
  HASH_Iterate table4_nine_one (logged sum_until_5) (0, [])
  = Ok (table4_nine_one, (11, [(9, 1); (1, 10)]), PVRSRV_OK).
Proof. reflexivity. Qed.

(** ** Insert without memory *)

Lemma Insert_alloc_failed (allocTable : bool) (t : HASH_TABLE) (key : HASH_KEY) (val : Z) :
  HASH_Insert_Extended false allocTable t key val = Ok (_inc_ref t, false).
Proof. reflexivity. Qed.

(** C4, the code at a failing input. On the freshly created table of four
    slots, an insert whose bucket allocation fails returns failure with the
    count and the chains as they were, but with the guard counter at 1
    instead of its value 0 before the call: the early return skips
    [_dec_ref]. The next call on the table, here a retrieve, then ends in
    BUG(). *)
Theorem insert_alloc_failure_holds_guard :
  hRefCount table4 = 0 /\
  HASH_Insert_Extended false true table4 [1] 10 = Ok (table4_held, false) /\
  uCount table4_held = uCount table4 /\
  ppBucketTable table4_held = ppBucketTable table4 /\
  hRefCount table4_held = 1 /\
  HASH_Retrieve_Extended table4_held [1] = Fatal.
Proof. repeat split; reflexivity. Qed.

(** ** Delete *)

Lemma delete_leaked_not_Fatal (tbl : list (list BUCKET)) (n i : nat) :
  delete_leaked tbl n i <> Fatal.
Proof.
  revert i. induction n as [|n IH]; intros i; simpl; [discriminate|].
  destruct (slot tbl (Z.of_nat i)) as [chain| |] eqn:Hs; simpl; try discriminate.
  - destruct chain as [|b rest]; [discriminate|].
    specialize (IH (S i)). destruct (delete_leaked tbl n (S i)); simpl; congruence.
  - unfold slot in Hs. destruct (tbl !! Z.to_nat (Z.of_nat i)); discriminate.
Qed.

(** When the leak loop completes, each of the slots it read held a bucket,
    and what it freed is the head of each of these slots. *)
Lemma delete_leaked_Ok (tbl : list (list BUCKET)) (n i : nat) (evs : list mem_event) :
  delete_leaked tbl n i = Ok evs ->
  length evs = n /\
  forall j, (j < n)%nat ->
    exists b rest, tbl !! (i + j)%nat = Some (b :: rest) /\
                   evs !! j = Some (FreeBucket (tombstone b)).
Proof.
  revert i evs. induction n as [|n IH]; intros i evs H; simpl in H.
  - injection H as <-. split; [reflexivity|]. intros j Hj. lia.
  - destruct (slot tbl (Z.of_nat i)) as [chain| |] eqn:Hs; simpl in H; try discriminate.
    apply slot_Ok in Hs. rewrite Nat2Z.id in Hs.
    destruct chain as [|b rest]; [discriminate|].
    destruct (delete_leaked tbl n (S i)) as [evs'| |] eqn:Hd; simpl in H; try discriminate.
    injection H as <-. destruct (IH _ _ Hd) as [Hlen Hall]. split; [simpl; lia|].
    intros [|j] Hj.
    + exists b, rest. rewrite Nat.add_0_r. auto.
    + destruct (Hall j) as (b' & rest' & Hl & He); [lia|].
      exists b', rest'. replace (i + S j)%nat with (S i + j)%nat by lia. auto.
Qed.

(** A table whose first [n] slots all hold a bucket has [n] entries at
    least, and exactly [n] only if no chain holds two. *)
Lemma heads_count (tbl : list (list BUCKET)) (n : nat) :
  (forall j, (j < n)%nat -> exists b rest, tbl !! j = Some (b :: rest)) ->
  (n <= length (concat tbl))%nat /\
  (length (concat tbl) = n -> Forall (fun chain => (length chain <= 1)%nat) tbl).
Proof.
  revert n. induction tbl as [|c tbl IH]; intros n Hn.
  - destruct n as [|n].
    + simpl. split; [lia|]. intros _. constructor.
    + destruct (Hn 0%nat) as (b & rest & H); [lia|]. discriminate.
  - destruct n as [|n].
    + simpl. split; [lia|]. intros H0.
      apply length_zero_iff_nil in H0. apply app_eq_nil in H0 as [-> H0].
      constructor; [simpl; lia|].
      destruct (IH 0%nat) as [_ IH0]; [intros j Hj; lia|]. apply IH0. rewrite H0. reflexivity.
    + destruct (Hn 0%nat) as (b & rest & H); [lia|]. simpl in H. injection H as ->.
      destruct (IH n) as [IH1 IH2].
      { intros j Hj. apply (Hn (S j)). lia. }
      simpl. rewrite length_app. split; [lia|]. intros Heq.
      constructor; [simpl; lia|]. apply IH2. lia.
Qed.

(** On a valid table in which some chain holds two buckets, the leak loop
    never completes: it reads a NULL slot first. *)
Lemma Delete_chained_Undefined (t : HASH_TABLE) (chain : list BUCKET) :
  valid t -> chain ∈ ppBucketTable t -> (2 <= length chain)%nat ->
  HASH_Delete t = Undefined.
Proof.
  intros Hv Hc H2. unfold HASH_Delete.
  change (uCount (_inc_ref t)) with (uCount t).
  change (ppBucketTable (_inc_ref t)) with (ppBucketTable t).
  pose proof (valid_count t Hv) as Hcnt.
  assert (uCount t <> 0) as Hnz.
  { rewrite Hcnt. unfold entries. apply list_elem_of_split in Hc as (l1 & l2 & ->).
    rewrite concat_app, length_app. simpl. rewrite length_app. lia. }
  destruct (Z.eqb_spec (uCount t) 0); [contradiction|]. simpl.
  destruct (delete_leaked (ppBucketTable t) (Z.to_nat (uCount t)) 0) as [evs| |] eqn:Hd;
    simpl; [| |reflexivity].
  - exfalso. apply delete_leaked_Ok in Hd as [_ Hall].
    destruct (heads_count (ppBucketTable t) (Z.to_nat (uCount t))) as [_ Hone].
    { intros j Hj. destruct (Hall j Hj) as (b & rest & Hl & _). eauto. }
    assert (Forall (fun c => (length c <= 1)%nat) (ppBucketTable t)) as Hf.
    { apply Hone. fold (entries t). lia. }
    rewrite Forall_forall in Hf. specialize (Hf chain Hc). lia.
  - exfalso. exact (delete_leaked_not_Fatal _ _ _ Hd).
Qed.

(** C5, the code at failing inputs. HASH_Delete frees the table's entries
    only when each of them sits alone at the head of one of the first
    [count] slots, as the single entry of [table4_nine] does. The loop reads
    [ppBucketTable[i]] for [i] below the count, not the chains: with two
    entries in slots 0 and 3 it frees the first and then dereferences the
    NULL slot 1, and with two entries chained in slot 3 it dereferences the
    NULL slot 0 at once; the bucket in the middle of the chain is never
    reached. *)
Theorem delete_reads_slots_not_chains :
  HASH_Delete table4_nine
  = Ok [FreeBucket (mkBUCKET BUCKET_FREE 1 [9]); FreeBucketTable; FreeHashTable] /\
  delete_leaked (ppBucketTable table4_nine_one) 1 0
  = Ok [FreeBucket (mkBUCKET BUCKET_FREE 1 [9])] /\
  HASH_Delete table4_nine_one = Undefined /\
  HASH_Delete table4_two = Undefined.
Proof. repeat split; reflexivity. Qed.

Example Delete_chained_Undefined_example : HASH_Delete table4_dup = Undefined.
Proof.
  apply (Delete_chained_Undefined table4_dup [bucket 1 20; bucket 1 10]).
  - exact table4_dup_valid.
  - repeat constructor.
  - simpl. lia.
Qed.

(** ** The scenario of the specification *)

(** A table created with four slots grows to eight on its third insert and
    shrinks back to four on the second of two removes; the key left is
    retrieved with its value. *)
Example grow_then_shrink :
  run table4 [OpInsert true true [1] 10; OpInsert true true [2] 5; OpInsert true true [3] 7]
  = Ok table4_three /\
  uSize table4_three = 8 /\
  run table4_three [OpRemove true [3]] = Ok table8_two /\
  run table8_two [OpRemove true [2]] = Ok table4_left /\
  uSize table4_left = 4 /\
  HASH_Retrieve table4_left 1 = Ok (table4_left, 10).
Proof. repeat split; reflexivity. Qed.

(** * Further properties of the code *)

(** ** Shared facts *)

Lemma Remove_absent (allocTable : bool) (t : HASH_TABLE) (key : HASH_KEY) :
  valid t -> matching t key = [] -> HASH_Remove_Extended allocTable t key = Ok (t, 0).
Proof.
  intros Hv Hnone.
  destruct (Remove_ok allocTable t key Hv) as [[t' val] Hrem].
  destruct (Remove_inv _ _ _ _ (valid_len t Hv) Hrem) as (chain & Hlook & Hcase).
  destruct (chain_find t key chain) as [b|] eqn:Hfind.
  - apply chain_find_Some in Hfind as [Hb Hc].
    rewrite matching_nil in Hnone. rewrite Hnone in Hc; [discriminate|].
    apply entries_slot. eauto.
  - simpl in Hcase. destruct Hcase as [-> ->].
    rewrite (set_hRefCount_id t (valid_ref t Hv)) in Hrem. exact Hrem.
Qed.

(** The walk for a key stops at the one entry that matches it, when that
    entry hashes as the key does. *)
Lemma finds_matching (t : HASH_TABLE) (key : HASH_KEY) (b : BUCKET) :
  wf t -> matching t key ≡ₚ [b] ->
  key_index t (k b) (uSize t) = key_index t key (uSize t) ->
  finds t key b.
Proof.
  intros Hw Hm Hidx.
  pose proof (key_index_range t key (uSize t) (wf_size t Hw)) as Hr.
  destruct (slot_in_range (ppBucketTable t) (key_index t key (uSize t))) as (chain & Hc & _).
  { rewrite (wf_len t Hw). lia. }
  exists chain. split; [exact Hc|].
  apply Permutation_singleton_r in Hm.
  assert (b ∈ matching t key) as Hb by (rewrite Hm; left).
  apply matching_elem in Hb as [Hcmp Hb].
  apply entries_slot in Hb as (i & c & Hi & Hbc).
  pose proof (wf_slots t Hw i c b Hi Hbc) as Hslot.
  assert (c = chain) as ->.
  { rewrite Hidx in Hslot. rewrite Hslot, Nat2Z.id in Hc. congruence. }
  destruct (chain_find_is_Some t key chain b Hbc Hcmp) as [x Hx]. rewrite Hx.
  apply chain_find_Some in Hx as [Hxc Hxk].
  assert (x ∈ matching t key) as Hxm.
  { apply matching_elem. split; [exact Hxk|]. apply entries_slot. eauto. }
  rewrite Hm in Hxm. apply list_elem_of_singleton in Hxm as ->. reflexivity.
Qed.

(** ** Creation *)

(** HASH_Create_Extended returns a table exactly when the initial
    length and the key size are not zero, both function pointers are not
    NULL and both allocations succeed. *)
Theorem create_succeeds_iff (allocHash allocTable : bool) (uInitialLen uKeySize : Z)
    (hashFunc : option HASH_FUNC) (keyComp : option HASH_KEY_COMP) :
  is_Some (HASH_Create_Extended allocHash allocTable uInitialLen uKeySize hashFunc keyComp)
  <-> uInitialLen <> 0 /\ uKeySize <> 0 /\ is_Some hashFunc /\ is_Some keyComp /\
      allocHash = true /\ allocTable = true.
Proof.
  unfold HASH_Create_Extended. split.
  - intros [t Ht].
    destruct hashFunc as [hf|]; [|destruct keyComp; discriminate].
    destruct keyComp as [kc|]; [|discriminate].
    destruct (Z.eqb_spec uInitialLen 0); [discriminate|].
    destruct (Z.eqb_spec uKeySize 0); [discriminate|].
    destruct allocHash; [|discriminate]. destruct allocTable; [|discriminate].
    repeat split; eauto.
  - intros (Hn & Hk & [hf ->] & [kc ->] & -> & ->).
    destruct (Z.eqb_spec uInitialLen 0); [contradiction|].
    destruct (Z.eqb_spec uKeySize 0); [contradiction|]. simpl. eauto.
Qed.

(** X1. A table that HASH_Create_Extended returns for an initial length in
    the 32-bit range is valid and empty, of the initial length, which is
    also its minimum; retrieve and remove of any key return the sentinel 0
    and leave it as it is. *)
Theorem create_valid_empty (allocHash allocTable allocResize : bool)
    (uInitialLen uKeySize : Z) (hashFunc : option HASH_FUNC)
    (keyComp : option HASH_KEY_COMP) (t : HASH_TABLE) (key : HASH_KEY) :
  HASH_Create_Extended allocHash allocTable uInitialLen uKeySize hashFunc keyComp = Some t ->
  0 <= uInitialLen < 2 ^ 32 ->
  valid t /\ entries t = [] /\ uCount t = 0 /\
  uSize t = uInitialLen /\ uMinimumSize t = uInitialLen /\
  HASH_Retrieve_Extended t key = Ok (t, 0) /\
  HASH_Remove_Extended allocResize t key = Ok (t, 0).
Proof.
  intros Hc Hr.
  assert (valid t /\ entries t = [] /\ uCount t = 0 /\
          uSize t = uInitialLen /\ uMinimumSize t = uInitialLen) as (Hv & He & H0 & Hs & Hm).
  { unfold HASH_Create_Extended in Hc.
    destruct hashFunc as [hf|]; [|destruct keyComp; discriminate].
    destruct keyComp as [kc|]; [|discriminate].
    destruct (Z.eqb_spec uInitialLen 0); [discriminate|].
    destruct (Z.eqb_spec uKeySize 0) as [|Hk]; [discriminate|].
    destruct allocHash; [|discriminate]. destruct allocTable; [|discriminate].
    simpl in Hc. split.
    - apply (Create_valid uInitialLen uKeySize (Some hf) (Some kc)); [|exact Hr].
      unfold HASH_Create_Extended.
      destruct (Z.eqb_spec uInitialLen 0); [contradiction|].
      destruct (Z.eqb_spec uKeySize 0); [contradiction|]. exact Hc.
    - injection Hc as <-. unfold entries. simpl. rewrite concat_replicate_nil. auto. }
  assert (matching t key = []) as Hnone by (unfold matching; rewrite He; reflexivity).
  split; [exact Hv|]. split; [exact He|]. split; [exact H0|].
  split; [exact Hs|]. split; [exact Hm|]. split.
  - apply Retrieve_absent; [apply valid_wf; exact Hv | exact Hnone].
  - apply Remove_absent; assumption.
Qed.

Lemma create_valid_empty_witness :
  valid table4 /\ entries table4 = [] /\ uCount table4 = 0 /\
  uSize table4 = 4 /\ uMinimumSize table4 = 4 /\
  HASH_Retrieve_Extended table4 [7] = Ok (table4, 0) /\
  HASH_Remove_Extended true table4 [7] = Ok (table4, 0).
Proof.
  apply (create_valid_empty true true true 4 sizeof_uintptr_t
           (Some HASH_Func_Default) (Some HASH_Key_Comp_Default) table4 [7]).
  - reflexivity.
  - lia.
Defined.

(** ** Validity is an invariant *)

(** X2. On a valid table remove always returns, whatever the key and the
    outcome of the allocation; the table it leaves is valid again, with the
    same strategy and minimum, and a size between the minimum and the size
    before. *)
Theorem remove_keeps_valid (allocTable : bool) (t : HASH_TABLE) (key : HASH_KEY) :
  valid t ->
  exists t' val, HASH_Remove_Extended allocTable t key = Ok (t', val) /\
    valid t' /\ same_strategy t t' /\ uMinimumSize t' = uMinimumSize t /\
    uMinimumSize t <= uSize t' <= uSize t /\ uCount t' <= uCount t.
Proof.
  intros Hv. destruct (Remove_ok allocTable t key Hv) as [[t' val] Hrem].
  exists t', val. split; [exact Hrem|].
  pose proof (Remove_valid _ _ _ _ Hv Hrem) as Hv'. simpl in Hv'. split; [exact Hv'|].
  destruct (Remove_inv _ _ _ _ (valid_len t Hv) Hrem) as (chain & _ & Hcase).
  destruct (chain_find t key chain) as [b|]; simpl in Hcase.
  - destruct Hcase as [_ Hr]. pose proof (valid_min t Hv) as Hmin.
    split; [exact (rem_strategy _ _ _ _ Hr)|]. split; [exact (rem_min _ _ _ _ Hr)|].
    split.
    + rewrite (rem_size _ _ _ _ Hr). destruct (shrinks t && allocTable); [|lia].
      rewrite PRIVATE_MAX_max, shiftr_1.
      assert (uSize t / 2 <= uSize t) by (apply Z.div_le_upper_bound; lia). lia.
    + rewrite (valid_count t' Hv'), (valid_count t Hv).
      pose proof (Permutation_length (rem_entries _ _ _ _ Hr)) as Hl. simpl in Hl. lia.
  - destruct Hcase as [_ ->]. rewrite (set_hRefCount_id t (valid_ref t Hv)).
    pose proof (valid_min t Hv).
    split; [apply same_strategy_refl|]. split; [reflexivity|]. lia.
Qed.

Lemma remove_keeps_valid_witness :
  exists t' val, HASH_Remove_Extended true table8_two [2] = Ok (t', val) /\
    valid t' /\ same_strategy table8_two t' /\ uMinimumSize t' = uMinimumSize table8_two /\
    uMinimumSize table8_two <= uSize t' <= uSize table8_two /\ uCount t' <= uCount table8_two.
Proof.
  apply (remove_keeps_valid true table8_two [2]).
  apply validb_sound. reflexivity.
Defined.

(** X3. On a valid table of fewer than 2^31 slots whose count can still be
    incremented, an insert that obtains its bucket returns success and
    leaves a valid table with one more entry, the same minimum, and either
    the size before or twice that size. *)
Theorem insert_keeps_valid (allocTable : bool) (t : HASH_TABLE) (key : HASH_KEY) (val : Z) :
  valid t -> uSize t < 2 ^ 31 -> uCount t + 1 < 2 ^ 32 ->
  exists t', HASH_Insert_Extended true allocTable t key val = Ok (t', true) /\
    valid t' /\ same_strategy t t' /\ uCount t' = uCount t + 1 /\
    uMinimumSize t' = uMinimumSize t /\
    (uSize t' = uSize t \/ uSize t' = 2 * uSize t).
Proof.
  intros Hv Hs Hc.
  destruct (Insert_ok allocTable t key val Hv) as [[t' ok] Hins]; [lia|].
  pose proof (Insert_valid _ _ _ _ _ Hv Hs Hc Hins) as Hv'. simpl in Hv'.
  destruct (Insert_inv _ _ _ _ _ (valid_len t Hv) Hins) as [Hok Hi]. simpl in Hok, Hi.
  subst ok. exists t'. split; [exact Hins|]. split; [exact Hv'|].
  split; [exact (ins_strategy _ _ _ _ Hi)|]. split.
  - rewrite (ins_count _ _ _ _ Hi). apply wrap32_small.
    pose proof (valid_count t Hv). lia.
  - split; [exact (ins_min _ _ _ _ Hi)|].
    rewrite (ins_size _ _ _ _ Hi). destruct (grows t && allocTable); [right|left; reflexivity].
    rewrite shiftl_1. apply wrap32_small. pose proof (valid_size t Hv). lia.
Qed.

Lemma insert_keeps_valid_witness :
  exists t', HASH_Insert_Extended true true table4_two [3] 7 = Ok (t', true) /\
    valid t' /\ same_strategy table4_two t' /\ uCount t' = uCount table4_two + 1 /\
    uMinimumSize t' = uMinimumSize table4_two /\
    (uSize t' = uSize table4_two \/ uSize t' = 2 * uSize table4_two).
Proof.
  apply (insert_keeps_valid true table4_two [3] 7).
  - exact table4_two_valid.
  - reflexivity.
  - reflexivity.
Defined.

(** ** Retrieve and remove *)

(** X4. On a valid table retrieve always returns and leaves the table as it
    is (no resize, guard released); what it returns is the sentinel 0 when
    no entry matches the key, and otherwise the value of an entry that
    matches the key. *)
Theorem retrieve_read_only (t : HASH_TABLE) (key : HASH_KEY) :
  valid t ->
  exists val, HASH_Retrieve_Extended t key = Ok (t, val) /\
    (matching t key = [] -> val = 0) /\
    (val <> 0 -> exists b, b ∈ matching t key /\ v b = val).
Proof.
  intros Hv. destruct (Retrieve_chain t key (valid_wf t Hv)) as (chain & Hc & Hret).
  destruct (chain_find t key chain) as [b|] eqn:Hf.
  - exists (v b). split; [exact Hret|].
    apply chain_find_Some in Hf as [Hb Hcmp].
    assert (b ∈ matching t key) as Hm.
    { apply matching_elem. split; [exact Hcmp|]. apply entries_slot. eauto. }
    split.
    + intros Hnil. rewrite Hnil in Hm. apply elem_of_nil in Hm. contradiction.
    + intros _. exists b. auto.
  - exists 0. split; [exact Hret|]. split; [reflexivity|]. intros H. contradiction.
Qed.

Lemma retrieve_read_only_witness :
  exists val, HASH_Retrieve_Extended table4_dup [1] = Ok (table4_dup, val) /\
    (matching table4_dup [1] = [] -> val = 0) /\
    (val <> 0 -> exists b, b ∈ matching table4_dup [1] /\ v b = val).
Proof.
  apply (retrieve_read_only table4_dup [1]). exact table4_dup_valid.
Defined.

(** X5. On a valid table, the value remove returns for a key is the value a
    retrieve of that key returns on the table before the remove. *)
Theorem remove_returns_retrieved (allocTable : bool) (t t' : HASH_TABLE) (key : HASH_KEY)
    (val : Z) :
  valid t -> HASH_Remove_Extended allocTable t key = Ok (t', val) ->
  HASH_Retrieve_Extended t key = Ok (t, val).
Proof.
  intros Hv Hrem.
  destruct (Remove_inv _ _ _ _ (valid_len t Hv) Hrem) as (chain & Hc & Hcase).
  destruct (Retrieve_chain t key (valid_wf t Hv)) as (chain' & Hc' & ->).
  rewrite Hc in Hc'. injection Hc' as <-.
  destruct (chain_find t key chain) as [b|]; simpl in Hcase; destruct Hcase as [-> _];
    reflexivity.
Qed.

Lemma remove_returns_retrieved_witness :
  HASH_Retrieve_Extended table4_dup [1] = Ok (table4_dup, 20).
Proof.
  apply (remove_returns_retrieved true table4_dup table4_left [1] 20).
  - exact table4_dup_valid.
  - reflexivity.
Defined.

(** ** Other keys are not disturbed *)

(** X6. On a valid table in which no key is held twice, after an insert
    that succeeded, with or without a resize, every entry that was there
    before and that the new key does not match is retrieved with its own
    value. *)
Theorem insert_keeps_other_keys (allocTable : bool) (t t' : HASH_TABLE) (key : HASH_KEY)
    (val : Z) :
  valid t -> distinct_keys t ->
  HASH_Insert_Extended true allocTable t key val = Ok (t', true) ->
  forall b, b ∈ entries t ->
    KEY_COMPARE t (OSCachedMemCopy key (uKeySize t)) (k b) = false ->
    HASH_Retrieve_Extended t' (k b) = Ok (t', v b).
Proof.
  intros Hv Hd Hins b Hb Hnew.
  pose proof (Insert_wf _ _ _ _ _ (valid_wf t Hv) Hins) as Hwf. simpl in Hwf.
  destruct (Insert_inv _ _ _ _ _ (valid_len t Hv) Hins) as [_ Hi]. simpl in Hi.
  apply Retrieve_matching; [exact Hwf | | reflexivity].
  rewrite (matching_inserted _ _ _ _ (k b) Hi).
  change (k (new_bucket t key val)) with (OSCachedMemCopy key (uKeySize t)).
  rewrite Hnew. simpl. unfold distinct_keys in Hd. rewrite Forall_forall in Hd.
  rewrite (Hd b Hb). reflexivity.
Qed.

Lemma insert_keeps_other_keys_witness :
  HASH_Retrieve_Extended table4_two' (k (bucket 2 5)) = Ok (table4_two', v (bucket 2 5)).
Proof.
  apply (insert_keeps_other_keys true table4_one table4_two' [1] 10).
  - exact table4_one_valid.
  - repeat constructor.
  - reflexivity.
  - left.
  - reflexivity.
Defined.

(** X7. On a valid table in which no key is held twice, inserting a key of
    the table's key size that matches no entry, and that no entry matches,
    leaves a table in which again no key is held twice. *)
Theorem insert_fresh_keeps_distinct (allocTable : bool) (t t' : HASH_TABLE)
    (key : HASH_KEY) (val : Z) :
  valid t -> distinct_keys t -> key_sized t key -> KEY_COMPARE t key key = true ->
  matching t key = [] ->
  Forall (fun b => KEY_COMPARE t key (k b) = false) (entries t) ->
  HASH_Insert_Extended true allocTable t key val = Ok (t', true) ->
  distinct_keys t'.
Proof.
  intros Hv Hd Hks Hrefl Hfresh Hnew Hins.
  destruct (Insert_inv _ _ _ _ _ (valid_len t Hv) Hins) as [_ Hi]. simpl in Hi.
  assert (k (new_bucket t key val) = key) as Hk by (apply OSCachedMemCopy_sized; exact Hks).
  unfold distinct_keys in *. rewrite Forall_forall in Hd, Hnew |- *.
  intros b Hb. rewrite (ins_entries _ _ _ _ Hi) in Hb.
  apply Permutation_singleton_r.
  rewrite (matching_inserted _ _ _ _ (k b) Hi), Hk.
  apply elem_of_cons in Hb as [->|Hb].
  - rewrite Hk, Hrefl, Hfresh. reflexivity.
  - rewrite (Hnew b Hb), (Hd b Hb). reflexivity.
Qed.

Lemma insert_fresh_keeps_distinct_witness : distinct_keys table4_two'.
Proof.
  apply (insert_fresh_keeps_distinct true table4_one table4_two' [1] 10).
  - exact table4_one_valid.
  - repeat constructor.
  - reflexivity.
  - reflexivity.
  - reflexivity.
  - repeat constructor.
  - reflexivity.
Defined.

(** X8. On a valid table in which no key is held twice, after any remove no
    key is held twice and every remaining entry is retrieved with its own
    value. *)
Theorem remove_keeps_other_keys (allocTable : bool) (t t' : HASH_TABLE) (key : HASH_KEY)
    (val : Z) :
  valid t -> distinct_keys t ->
  HASH_Remove_Extended allocTable t key = Ok (t', val) ->
  distinct_keys t' /\
  forall b, b ∈ entries t' -> HASH_Retrieve_Extended t' (k b) = Ok (t', v b).
Proof.
  intros Hv Hd Hrem.
  pose proof (Remove_valid _ _ _ _ Hv Hrem) as Hv'. simpl in Hv'.
  assert (distinct_keys t') as Hd'.
  { destruct (Remove_inv _ _ _ _ (valid_len t Hv) Hrem) as (chain & _ & Hcase).
    simpl in Hcase. destruct (chain_find t key chain) as [rb|].
    - destruct Hcase as [_ Hr].
      unfold distinct_keys in *. rewrite Forall_forall in Hd |- *.
      intros b Hb.
      assert (b ∈ entries t) as Hbt by (rewrite (rem_entries _ _ _ _ Hr); right; exact Hb).
      pose proof (matching_removed _ _ _ _ (k b) Hr) as Hm. rewrite (Hd b Hbt) in Hm.
      assert (b ∈ matching t' (k b)) as Hbm.
      { apply matching_elem. split; [|exact Hb].
        rewrite <- (KEY_COMPARE_strategy t t' _ _ (rem_strategy _ _ _ _ Hr)).
        assert (b ∈ matching t (k b)) as Hx by (rewrite (Hd b Hbt); left).
        apply matching_elem in Hx as [Hx _]. exact Hx. }
      destruct (matching t' (k b)) as [|x l] eqn:Hl.
      + apply elem_of_nil in Hbm. contradiction.
      + pose proof (Permutation_length Hm) as Hlen. rewrite length_app in Hlen.
        simpl in Hlen. destruct l as [|y l]; [|simpl in Hlen; lia].
        apply list_elem_of_singleton in Hbm as ->. reflexivity.
    - destruct Hcase as [_ ->]. rewrite (set_hRefCount_id t (valid_ref t Hv)). exact Hd. }
  split; [exact Hd'|].
  intros b Hb. apply Retrieve_matching; [apply valid_wf; exact Hv' | | reflexivity].
  unfold distinct_keys in Hd'. rewrite Forall_forall in Hd'. rewrite (Hd' b Hb). reflexivity.
Qed.

Lemma remove_keeps_other_keys_witness :
  distinct_keys table8_two /\
  forall b, b ∈ entries table8_two ->
    HASH_Retrieve_Extended table8_two (k b) = Ok (table8_two, v b).
Proof.
  apply (remove_keeps_other_keys true table4_three table8_two [3] 7).
  - exact table4_three_valid.
  - repeat constructor.
  - reflexivity.
Defined.

(** X9. Insert then remove is a round trip: on a valid table of fewer than
    2^31 slots, after a key of the table's key size that no entry matches
    was inserted, a remove of that key returns the inserted value and leaves
    a valid table with the entries and the count of the table before the
    insert. *)
Theorem insert_then_remove (alloc1 alloc2 : bool) (t t' : HASH_TABLE) (key : HASH_KEY)
    (val : Z) :
  valid t -> uSize t < 2 ^ 31 -> uCount t + 1 < 2 ^ 32 ->
  key_sized t key -> KEY_COMPARE t key key = true -> matching t key = [] ->
  HASH_Insert_Extended true alloc1 t key val = Ok (t', true) ->
  exists t'', HASH_Remove_Extended alloc2 t' key = Ok (t'', val) /\
    valid t'' /\ entries t'' ≡ₚ entries t /\ uCount t'' = uCount t.
Proof.
  intros Hv Hs Hc Hks Hrefl Hfresh Hins.
  pose proof (Insert_valid _ _ _ _ _ Hv Hs Hc Hins) as Hv'. simpl in Hv'.
  destruct (Insert_inv _ _ _ _ _ (valid_len t Hv) Hins) as [_ Hi]. simpl in Hi.
  assert (k (new_bucket t key val) = key) as Hk by (apply OSCachedMemCopy_sized; exact Hks).
  assert (finds t' key (new_bucket t key val)) as Hf.
  { apply finds_matching; [apply valid_wf; exact Hv' | | rewrite Hk; reflexivity].
    rewrite (matching_inserted _ _ _ _ key Hi), Hk, Hrefl, Hfresh. reflexivity. }
  destruct (finds_removed alloc2 t' key _ Hv' Hf) as (t'' & Hrem & Hr & Hv'' & _ & _).
  exists t''. split; [exact Hrem|]. split; [exact Hv''|].
  assert (entries t'' ≡ₚ entries t) as Hp.
  { apply (Permutation_cons_inv (a := new_bucket t key val)).
    rewrite <- (rem_entries _ _ _ _ Hr). exact (ins_entries _ _ _ _ Hi). }
  split; [exact Hp|].
  rewrite (valid_count t'' Hv''), (valid_count t Hv), (Permutation_length Hp). reflexivity.
Qed.

Lemma insert_then_remove_witness :
  exists t'', HASH_Remove_Extended true table4_three [3] = Ok (t'', 7) /\
    valid t'' /\ entries t'' ≡ₚ entries table4_two /\ uCount t'' = uCount table4_two.
Proof.
  apply (insert_then_remove true true table4_two table4_three [3] 7).
  - exact table4_two_valid.
  - reflexivity.
  - reflexivity.
  - reflexivity.
  - reflexivity.
  - reflexivity.
  - reflexivity.
Defined.

(** ** Resize and rehash *)

(** X10. On a valid table, a resize to any size from the minimum up to the
    32-bit range whose allocation succeeds returns success and a valid table
    of that size holding the same entries, so the entries matching any key
    are the same. *)
Theorem resize_keeps_entries (t : HASH_TABLE) (uNewSize : Z) :
  valid t -> uMinimumSize t <= uNewSize < 2 ^ 32 ->
  exists t', _Resize true t uNewSize = Ok (t', true) /\
    valid t' /\ uSize t' = uNewSize /\ entries t' ≡ₚ entries t /\
    forall key, matching t' key ≡ₚ matching t key.
Proof.
  intros Hv Hn. pose proof (valid_min t Hv) as Hmin.
  destruct (Z.eq_dec uNewSize (uSize t)) as [->|Hne].
  - exists t. rewrite Resize_same. split; [reflexivity|]. split; [exact Hv|].
    split; [reflexivity|]. split; reflexivity.
  - destruct (Resize_ok true t uNewSize (valid_len t Hv)) as [[t' ok] Hrz]; [lia|].
    destruct (Resize_inv _ _ _ _ (valid_len t Hv) Hrz) as [[_ [?|?]]|(_ & _ & Hok & Hr)];
      [contradiction | discriminate |].
    simpl in Hok, Hr. subst ok. exists t'. split; [exact Hrz|].
    destruct Hv as [Hsz _ Hlen Hcnt Hc32 Hslots Href].
    destruct Hr as [Hrs Hrsz Hrc Hrm Hrr Hrl Hre Hrsl _].
    split; [|split; [exact Hrsz|split; [exact Hre|]]].
    + constructor; try lia.
      * rewrite Hrc, Hcnt, (Permutation_length Hre). reflexivity.
      * rewrite Hrsz. apply Hrsl. lia.
    + intros key. apply matching_perm; [exact Hrs | exact Hre].
Qed.

Lemma resize_keeps_entries_witness :
  exists t', _Resize true table4_two 16 = Ok (t', true) /\
    valid t' /\ uSize t' = 16 /\ entries t' ≡ₚ entries table4_two /\
    forall key, matching t' key ≡ₚ matching table4_two key.
Proof.
  apply (resize_keeps_entries table4_two 16).
  - exact table4_two_valid.
  - split; [discriminate | reflexivity].
Defined.

(** X11. A resize to zero slots of a valid table that holds an entry is
    undefined: the rehash takes the hash of the first bucket modulo a size
    of zero. Zero is the new size [uSize << 1] that an insert computes for a
    table of 2^31 slots. *)
Theorem resize_to_zero_undefined (t : HASH_TABLE) :
  valid t -> uCount t <> 0 -> _Resize true t 0 = Undefined.
Proof.
  intros Hv Hc. pose proof (valid_size t Hv) as Hsz.
  unfold _Resize. destruct (Z.eqb_spec 0 (uSize t)); [lia|]. simpl.
  rewrite (Rehash_flat _ _ _ _ _ (valid_len t Hv)).
  fold (entries t). pose proof (valid_count t Hv) as Hcnt.
  destruct (entries t) as [|b l]; [simpl in Hcnt; lia|]. reflexivity.
Qed.

Lemma resize_to_zero_undefined_witness :
  wrap32 (Z.shiftl (2 ^ 31) 1) = 0 /\ _Resize true table4_one 0 = Undefined.
Proof.
  split; [reflexivity|].
  apply (resize_to_zero_undefined table4_one).
  - exact table4_one_valid.
  - discriminate.
Defined.

Lemma rehash_chain_slots (t : HASH_TABLE) (l : list BUCKET) (tbl : list (list BUCKET))
    (n : Z) :
  0 < n -> length tbl = Z.to_nat n ->
  exists tbl', rehash_chain t l tbl n = Ok tbl' /\ length tbl' = length tbl /\
    forall (j : nat) chain, tbl !! j = Some chain ->
      tbl' !! j = Some (rev (filter (fun b => key_index t (k b) n = Z.of_nat j) l) ++ chain).
Proof.
  intros Hn. revert tbl. induction l as [|b l IH]; intros tbl Hlen.
  - exists tbl. split; [reflexivity|]. split; [reflexivity|]. intros j chain Hj. exact Hj.
  - simpl. destruct (ChainInsert_ok t b tbl n Hn Hlen) as (c & Hc & ->). simpl.
    set (i := Z.to_nat (key_index t (k b) n)) in *.
    destruct (IH (<[i := b :: c]> tbl)) as (tbl' & -> & Hlen' & Hall).
    { rewrite length_insert. exact Hlen. }
    exists tbl'. split; [reflexivity|]. rewrite length_insert in Hlen'.
    split; [exact Hlen'|]. intros j chain Hj.
    pose proof (key_index_range t (k b) n Hn) as Hr.
    rewrite filter_cons. destruct (decide (key_index t (k b) n = Z.of_nat j)) as [He|Hne].
    + assert (i = j) as <- by (unfold i; lia).
      rewrite Hc in Hj. injection Hj as <-.
      rewrite (Hall i (b :: c)).
      * simpl. rewrite <- app_assoc. reflexivity.
      * apply list_lookup_insert_eq. eapply lookup_lt_Some; eauto.
    + apply Hall. rewrite list_lookup_insert_ne; [exact Hj|]. unfold i. lia.
Qed.

(** X12. _Rehash into a table of [n] > 0 slots completes, and puts in front
    of what slot [j] of the new table held the buckets of the old table
    that hash to [j], in the reverse of the order in which the old table is
    walked: the old chain order is not kept. *)
Theorem rehash_reverses_chains (t : HASH_TABLE) (old new : list (list BUCKET))
    (uOldSize uNewSize : Z) :
  length old = Z.to_nat uOldSize -> 0 < uNewSize -> length new = Z.to_nat uNewSize ->
  exists tbl', _Rehash t old uOldSize new uNewSize = Ok tbl' /\
    length tbl' = length new /\
    forall (j : nat) chain, new !! j = Some chain ->
      tbl' !! j
      = Some (rev (filter (fun b => key_index t (k b) uNewSize = Z.of_nat j) (concat old))
              ++ chain).
Proof.
  intros Hold Hn Hnew. rewrite (Rehash_flat _ _ _ _ _ Hold).
  apply rehash_chain_slots; assumption.
Qed.

Lemma rehash_reverses_chains_witness :
  exists tbl', _Rehash table4_dup (ppBucketTable table4_dup) 4 (replicate 8 []) 8 = Ok tbl' /\
    length tbl' = length (replicate 8 ([] : list BUCKET)) /\
    forall (j : nat) chain, replicate 8 ([] : list BUCKET) !! j = Some chain ->
      tbl' !! j
      = Some (rev (filter (fun b => key_index table4_dup (k b) 8 = Z.of_nat j)
                     (concat (ppBucketTable table4_dup)))
              ++ chain).
Proof.
  apply (rehash_reverses_chains table4_dup (ppBucketTable table4_dup) (replicate 8 []) 4 8).
  - reflexivity.
  - reflexivity.
  - reflexivity.
Defined.

(** ** The guard *)

Lemma Retrieve_held (t : HASH_TABLE) (key : HASH_KEY) :
  valid t -> HASH_Retrieve_Extended (_inc_ref t) key = Fatal.
Proof.
  intros Hv. destruct Hv as [Hsz _ Hlen _ _ _ Href].
  unfold HASH_Retrieve_Extended, KEY_TO_INDEX.
  change (uSize (_inc_ref (_inc_ref t))) with (uSize t).
  change (ppBucketTable (_inc_ref (_inc_ref t))) with (ppBucketTable t).
  destruct (Z.eqb_spec (uSize t) 0); [lia|]. simpl.
  pose proof (key_index_range (_inc_ref (_inc_ref t)) key (uSize t) (proj1 Hsz)) as Hr.
  destruct (slot_in_range (ppBucketTable t) (key_index (_inc_ref (_inc_ref t)) key (uSize t)))
    as (chain & _ & ->); [lia|].
  simpl. assert (_dec_ref (_inc_ref (_inc_ref t)) = Fatal) as Hd.
  { unfold _dec_ref, _inc_ref. simpl. rewrite Href. reflexivity. }
  destruct (chain_find (_inc_ref (_inc_ref t)) key chain); rewrite Hd; reflexivity.
Qed.

Lemma Iterate_held {St : Type} (cb : HASH_pfnCallback St) (t : HASH_TABLE) (s : St) :
  valid t -> HASH_Iterate (_inc_ref t) cb s = Fatal.
Proof.
  intros Hv. unfold HASH_Iterate.
  change (ppBucketTable (_inc_ref (_inc_ref t))) with (ppBucketTable t).
  change (uSize (_inc_ref (_inc_ref t))) with (uSize t).
  rewrite iterate_slots_flat by (rewrite (valid_len t Hv); lia). simpl.
  unfold _dec_ref, _inc_ref. simpl. rewrite (valid_ref t Hv). reflexivity.
Qed.

Lemma Remove_held (allocTable : bool) (t : HASH_TABLE) (key : HASH_KEY) :
  valid t -> HASH_Remove_Extended allocTable (_inc_ref t) key = Fatal.
Proof.
  intros Hv. destruct Hv as [Hsz Hmin Hlen _ _ _ Href].
  unfold HASH_Remove_Extended, KEY_TO_INDEX.
  change (ppBucketTable (_inc_ref (_inc_ref t))) with (ppBucketTable t).
  change (uSize (_inc_ref (_inc_ref t))) with (uSize t).
  destruct (Z.eqb_spec (uSize t) 0); [lia|]. simpl.
  set (th := _inc_ref (_inc_ref t)).
  pose proof (key_index_range th key (uSize t) (proj1 Hsz)) as Hr.
  destruct (slot_in_range (ppBucketTable t) (key_index th key (uSize t)))
    as (chain & _ & ->); [lia|].
  simpl. set (i := Z.to_nat (key_index th key (uSize t))).
  assert (hRefCount th = 2) as Hth by (unfold th, _inc_ref; simpl; rewrite Href; reflexivity).
  destruct (chain_unlink th key chain) as [[b chain']|].
  - set (t1 := set_uCount (set_ppBucketTable th (<[i := chain']> (ppBucketTable t)))
                 (wrap32 (uCount t - 1))).
    assert (length (ppBucketTable t1) = Z.to_nat (uSize t1)) as Hlen1.
    { simpl. rewrite length_insert. exact Hlen. }
    assert (hRefCount t1 = 2) as Href1 by exact Hth.
    change (uSize t1) with (uSize t). change (uMinimumSize t1) with (uMinimumSize t).
    change (uCount t1) with (wrap32 (uCount t - 1)).
    destruct ((uSize t >? wrap32 (Z.shiftl (wrap32 (uCount t - 1)) 2))
              && (uSize t >? uMinimumSize t)).
    + destruct (Resize_ok allocTable t1 (PRIVATE_MAX (Z.shiftr (uSize t) 1) (uMinimumSize t))
                  Hlen1) as [r1 Hr1].
      { rewrite PRIVATE_MAX_max. lia. }
      rewrite Hr1. simpl.
      assert (hRefCount (fst r1) = 2) as Href2.
      { apply (Resize_inv _ _ _ _ Hlen1) in Hr1 as [[-> _]|(_ & _ & _ & Hrz)]; [exact Href1|].
        rewrite (resized_ref _ _ _ Hrz). exact Href1. }
      unfold _dec_ref. rewrite Href2. reflexivity.
    + simpl. unfold _dec_ref. rewrite Href1. reflexivity.
  - unfold _dec_ref. rewrite Hth. reflexivity.
Qed.

(** X13. On a valid table, an insert whose bucket allocation fails returns
    failure and the table with its guard still held, and that table is lost
    to its users: every retrieve, remove and iterate on it ends in
    BUG()/abort(). *)
Theorem failed_insert_kills_table (St : Type) (cb : HASH_pfnCallback St) (s : St)
    (alloc1 alloc2 : bool) (t : HASH_TABLE) (key key' : HASH_KEY) (val : Z) :
  valid t ->
  exists t', HASH_Insert_Extended false alloc1 t key val = Ok (t', false) /\
    entries t' = entries t /\ uCount t' = uCount t /\ hRefCount t' = 1 /\
    HASH_Retrieve_Extended t' key' = Fatal /\
    HASH_Remove_Extended alloc2 t' key' = Fatal /\
    HASH_Iterate t' cb s = Fatal.
Proof.
  intros Hv. exists (_inc_ref t). split; [reflexivity|].
  split; [reflexivity|]. split; [reflexivity|]. split.
  - unfold _inc_ref. simpl. rewrite (valid_ref t Hv). reflexivity.
  - split; [apply Retrieve_held; exact Hv|].
    split; [apply Remove_held; exact Hv | apply Iterate_held; exact Hv].
Qed.

Lemma failed_insert_kills_table_witness :
  exists t', HASH_Insert_Extended false true table4_two [3] 7 = Ok (t', false) /\
    entries t' = entries table4_two /\ uCount t' = uCount table4_two /\ hRefCount t' = 1 /\
    HASH_Retrieve_Extended t' [1] = Fatal /\
    HASH_Remove_Extended true t' [1] = Fatal /\
    HASH_Iterate t' sum_until_5 0 = Fatal.
Proof.
  apply (failed_insert_kills_table Z sum_until_5 0 true true table4_two [3] [1] 7).
  exact table4_two_valid.
Defined.

(** ** The default strategy *)

Lemma key_words_eq_take (n : nat) (k1 k2 : HASH_KEY) :
  key_words_eq n k1 k2 = true <->
  (n <= length k1)%nat /\ (n <= length k2)%nat /\ take n k1 = take n k2.
Proof.
  revert k1 k2. induction n as [|n IH]; intros k1 k2; simpl.
  - split; [intros _; repeat split; lia | reflexivity].
  - destruct k1 as [|w1 k1], k2 as [|w2 k2]; simpl;
      try (split; [discriminate | intros (H1 & H2 & _); simpl in *; lia]).
    destruct (Z.eqb_spec w1 w2) as [->|Hne].
    + rewrite IH. split.
      * intros (H1 & H2 & H3). repeat split; try lia. rewrite H3. reflexivity.
      * intros (H1 & H2 & H3). injection H3 as H3. repeat split; try lia. exact H3.
    + split; [discriminate|]. intros (_ & _ & H3). injection H3 as H3 _. contradiction.
Qed.

(** X14. On two keys of the key size, HASH_Key_Comp_Default answers true
    exactly when the keys are equal. *)
Theorem default_compare_decides_equality (uKeySize : Z) (pKey1 pKey2 : HASH_KEY) :
  length pKey1 = uKeyLen uKeySize -> length pKey2 = uKeyLen uKeySize ->
  (HASH_Key_Comp_Default uKeySize pKey1 pKey2 = true <-> pKey1 = pKey2).
Proof.
  intros H1 H2. unfold HASH_Key_Comp_Default. rewrite key_words_eq_take.
  rewrite <- H1 at 3. rewrite <- H2 at 3. rewrite !firstn_all. split.
  - intros (_ & _ & H). exact H.
  - intros H. repeat split; [lia | lia | exact H].
Qed.

Lemma default_compare_decides_equality_witness :
  (HASH_Key_Comp_Default 16 [3; 4] [3; 4] = true <-> [3; 4] = [3; 4]) /\
  (HASH_Key_Comp_Default 16 [3; 4] [3; 5] = true <-> [3; 4] = [3; 5]).
Proof.
  split.
  - apply (default_compare_decides_equality 16 [3; 4] [3; 4]); reflexivity.
  - apply (default_compare_decides_equality 16 [3; 4] [3; 5]); reflexivity.
Defined.

(** X15. Keys that HASH_Key_Comp_Default finds equal get the same hash from
    HASH_Func_Default, whatever table lengths are passed: the default
    strategy looks a key up in the slot where it stored it. *)
Theorem default_hash_respects_compare (uKeySize : Z) (pKey1 pKey2 : HASH_KEY)
    (uLen1 uLen2 : Z) :
  HASH_Key_Comp_Default uKeySize pKey1 pKey2 = true ->
  HASH_Func_Default uKeySize pKey1 uLen1 = HASH_Func_Default uKeySize pKey2 uLen2.
Proof.
  unfold HASH_Key_Comp_Default, HASH_Func_Default. rewrite key_words_eq_take.
  intros (_ & _ & ->). reflexivity.
Qed.

Lemma default_hash_respects_compare_witness :
  HASH_Func_Default 8 [1; 99] 4 = HASH_Func_Default 8 [1; 7] 8.
Proof.
  apply (default_hash_respects_compare 8 [1; 99] [1; 7] 4 8). reflexivity.
Defined.

Lemma lxor_32 (a b : Z) : 0 <= a < 2 ^ 32 -> 0 <= b < 2 ^ 32 -> 0 <= Z.lxor a b < 2 ^ 32.
Proof.
  intros Ha Hb. assert (0 <= Z.lxor a b) as Hn by (apply Z.lxor_nonneg; lia).
  split; [exact Hn|].
  destruct (Z.eq_dec (Z.lxor a b) 0) as [->|Hne]; [lia|].
  apply Z.log2_lt_pow2; [lia|].
  eapply Z.le_lt_trans; [apply Z.log2_lxor; lia|].
  apply Z.max_lub_lt.
  - destruct (Z.eq_dec a 0) as [->|]; [simpl; lia|]. apply Z.log2_lt_pow2; lia.
  - destruct (Z.eq_dec b 0) as [->|]; [simpl; lia|]. apply Z.log2_lt_pow2; lia.
Qed.

Lemma shiftr_32 (a n : Z) : 0 <= a < 2 ^ 32 -> 0 <= n -> 0 <= Z.shiftr a n < 2 ^ 32.
Proof.
  intros Ha Hn. rewrite Z.shiftr_div_pow2 by exact Hn.
  assert (0 < 2 ^ n) by (apply Z.pow_pos_nonneg; lia).
  split; [apply Z.div_pos; lia|].
  apply Z.le_lt_trans with a; [|lia]. apply Z.div_le_upper_bound; [lia|]. nia.
Qed.

Lemma mix_32 (a n : Z) :
  0 <= a < 2 ^ 32 -> 0 <= n -> 0 <= Z.lxor a (Z.shiftr a n) < 2 ^ 32.
Proof. intros Ha Hn. apply lxor_32; [exact Ha | apply shiftr_32; assumption]. Qed.

(** Every intermediate value of the mixing in HASH_Func_Default and
    the hash it returns lie in the 32-bit range: the exclusive-or steps
    never leave it, so only the additions wrap. *)
Theorem default_hash_range (uKeySize : Z) (pKey : HASH_KEY) (uHashTabLen w : Z) :
  0 <= hash_part w < 2 ^ 32 /\
  0 <= HASH_Func_Default uKeySize pKey uHashTabLen < 2 ^ 32.
Proof.
  split.
  - unfold hash_part. repeat (apply mix_32; [|lia]). apply wrap32_range.
  - unfold HASH_Func_Default.
    assert (forall l a, 0 <= a < 2 ^ 32 ->
              0 <= fold_left (fun uHashKey x => wrap32 (uHashKey + hash_part x)) l a < 2 ^ 32)
      as H.
    { induction l as [|x l IH]; intros a Ha; simpl; [exact Ha|].
      apply IH. apply wrap32_range. }
    apply H. lia.
Qed.

(** ** Integrity tags *)




(** ** The resize policy *)

Lemma grows_spec (t : HASH_TABLE) :
  0 <= uCount t -> uCount t + 1 < 2 ^ 31 ->
  grows t = true <-> (uCount t + 1) * 2 > uSize t.
Proof.
  intros H0 H1. unfold grows. rewrite (wrap32_small (uCount t + 1)) by lia.
  rewrite shiftl_1, wrap32_small by lia. rewrite Z.gtb_lt. lia.
Qed.

Lemma shrinks_spec (t : HASH_TABLE) :
  1 <= uCount t -> uCount t - 1 < 2 ^ 30 ->
  shrinks t = true <-> uSize t > (uCount t - 1) * 4 /\ uSize t > uMinimumSize t.
Proof.
  intros H0 H1. unfold shrinks. rewrite (wrap32_small (uCount t - 1)) by lia.
  rewrite shiftl_2, wrap32_small by lia. rewrite andb_true_iff, !Z.gtb_lt. lia.
Qed.

(** X17. A table that is at most half full stays so: on a valid table of
    fewer than 2^31 slots with count*2 <= size, every insert and every
    remove whose allocations succeed returns and leaves a valid table with
    count*2 <= size again. *)
Theorem step_keeps_half_full (t : HASH_TABLE) (o : op) :
  valid t -> uSize t < 2 ^ 31 -> 2 * uCount t <= uSize t -> allocs_ok o = true ->
  exists t', step t o = Ok t' /\ valid t' /\ 2 * uCount t' <= uSize t'.
Proof.
  intros Hv Hs Hhalf Ha. pose proof (valid_count t Hv) as Hcnt.
  pose proof (valid_size t Hv) as Hsz. pose proof (valid_min t Hv) as Hmin.
  destruct o as [ab at_ key val|at_ key]; simpl in *.
  - apply andb_true_iff in Ha as [-> ->].
    destruct (Insert_ok true t key val Hv) as [[t' ok] Hins]; [lia|].
    pose proof (Insert_valid _ _ _ _ _ Hv Hs ltac:(lia) Hins) as Hv'. simpl in Hv'.
    destruct (Insert_inv _ _ _ _ _ (valid_len t Hv) Hins) as [_ Hi]. simpl in Hi.
    rewrite Hins. simpl. exists t'. split; [reflexivity|]. split; [exact Hv'|].
    rewrite (ins_count _ _ _ _ Hi), (ins_size _ _ _ _ Hi), wrap32_small by lia.
    rewrite andb_true_r. destruct (grows t) eqn:Hg.
    + rewrite shiftl_1, wrap32_small by lia. lia.
    + assert (~ (uCount t + 1) * 2 > uSize t) as Hn.
      { rewrite <- grows_spec by lia. rewrite Hg. discriminate. }
      lia.
  - destruct (Remove_ok at_ t key Hv) as [[t' val] Hrem].
    pose proof (Remove_valid _ _ _ _ Hv Hrem) as Hv'. simpl in Hv'.
    rewrite Hrem. simpl. exists t'. split; [reflexivity|]. split; [exact Hv'|].
    destruct (Remove_inv _ _ _ _ (valid_len t Hv) Hrem) as (chain & _ & Hcase).
    simpl in Hcase. destruct (chain_find t key chain) as [b|].
    + destruct Hcase as [_ Hr].
      pose proof (Permutation_length (rem_entries _ _ _ _ Hr)) as Hl. simpl in Hl.
      rewrite (rem_count _ _ _ _ Hr), (rem_size _ _ _ _ Hr), wrap32_small by lia.
      destruct (shrinks t && at_) eqn:Hsh; [|lia].
      apply andb_true_iff in Hsh as [Hsh _].
      apply shrinks_spec in Hsh as [H4 _]; [|lia|lia].
      rewrite PRIVATE_MAX_max, shiftr_1.
      assert (2 * (uCount t - 1) <= uSize t / 2) by (apply Z.div_le_lower_bound; lia).
      lia.
    + destruct Hcase as [_ ->]. simpl. exact Hhalf.
Qed.

Lemma step_keeps_half_full_witness :
  exists t', step table4_two (OpInsert true true [3] 7) = Ok t' /\ valid t' /\
             2 * uCount t' <= uSize t'.
Proof.
  apply (step_keeps_half_full table4_two (OpInsert true true [3] 7)).
  - exact table4_two_valid.
  - reflexivity.
  - discriminate.
  - reflexivity.
Defined.

(** X18. The size stays the minimum times a power of two: on a valid table
    of fewer than 2^31 slots whose size is uMinimumSize * 2^j, every insert
    and every remove that returns, whatever the allocations did, leaves a
    size of that form, for [j], [j]+1 or [j]-1. *)
Theorem step_keeps_size_shape (t t' : HASH_TABLE) (o : op) (j : Z) :
  valid t -> uSize t < 2 ^ 31 -> 0 <= j -> uSize t = uMinimumSize t * 2 ^ j ->
  step t o = Ok t' ->
  uMinimumSize t' = uMinimumSize t /\
  exists j', (j' = j \/ j' = j + 1 \/ j' = j - 1) /\ 0 <= j' /\
             uSize t' = uMinimumSize t' * 2 ^ j'.
Proof.
  intros Hv Hs Hj Hshape Hstep. pose proof (valid_size t Hv) as Hsz.
  pose proof (valid_min t Hv) as Hmin.
  destruct o as [ab at_ key val|at_ key]; simpl in Hstep.
  - destruct (HASH_Insert_Extended ab at_ t key val) as [r| |] eqn:Hins; simpl in Hstep;
      try discriminate.
    injection Hstep as <-. destruct ab.
    + destruct (Insert_inv _ _ _ _ _ (valid_len t Hv) Hins) as [_ Hi].
      split; [exact (ins_min _ _ _ _ Hi)|].
      rewrite (ins_size _ _ _ _ Hi), (ins_min _ _ _ _ Hi).
      destruct (grows t && at_).
      * exists (j + 1). split; [lia|]. split; [lia|].
        rewrite shiftl_1, wrap32_small by lia. rewrite Z.pow_add_r by lia. lia.
      * exists j. split; [lia|]. auto.
    + unfold HASH_Insert_Extended in Hins. simpl in Hins. injection Hins as <-.
      split; [reflexivity|]. exists j. split; [lia|]. auto.
  - destruct (HASH_Remove_Extended at_ t key) as [r| |] eqn:Hrem; simpl in Hstep;
      try discriminate.
    injection Hstep as <-.
    destruct (Remove_inv _ _ _ _ (valid_len t Hv) Hrem) as (chain & _ & Hcase).
    destruct (chain_find t key chain) as [b|].
    + destruct Hcase as [_ Hr]. split; [exact (rem_min _ _ _ _ Hr)|].
      rewrite (rem_size _ _ _ _ Hr), (rem_min _ _ _ _ Hr).
      destruct (shrinks t && at_) eqn:Hsh.
      * apply andb_true_iff in Hsh as [Hsh _]. unfold shrinks in Hsh.
        apply andb_true_iff in Hsh as [_ Hgt]. apply Z.gtb_lt in Hgt.
        assert (1 <= j) as Hj1.
        { destruct (Z.eq_dec j 0) as [->|]; [|lia]. rewrite Z.pow_0_r in Hshape. lia. }
        exists (j - 1). split; [lia|]. split; [lia|].
        assert (2 ^ j = 2 * 2 ^ (j - 1)) as Hp.
        { replace j with (Z.succ (j - 1)) at 1 by lia. apply Z.pow_succ_r. lia. }
        assert (0 < 2 ^ (j - 1)) by (apply Z.pow_pos_nonneg; lia).
        rewrite PRIVATE_MAX_max, shiftr_1, Hshape, Hp.
        replace (uMinimumSize t * (2 * 2 ^ (j - 1))) with (uMinimumSize t * 2 ^ (j - 1) * 2)
          by lia.
        rewrite Z.div_mul by lia. nia.
      * exists j. split; [lia|]. auto.
    + destruct Hcase as [_ ->]. split; [reflexivity|]. exists j. split; [lia|]. auto.
Qed.

Lemma step_keeps_size_shape_witness :
  uMinimumSize table4_left = uMinimumSize table8_two /\
  exists j', (j' = 1 \/ j' = 1 + 1 \/ j' = 1 - 1) /\ 0 <= j' /\
             uSize table4_left = uMinimumSize table4_left * 2 ^ j'.
Proof.
  apply (step_keeps_size_shape table8_two table4_left (OpRemove true [2]) 1).
  - apply validb_sound. reflexivity.
  - reflexivity.
  - discriminate.
  - reflexivity.
  - reflexivity.
Defined.

(** ** Delete, when it completes *)

Lemma delete_leaked_singletons (tbl : list (list BUCKET)) (n i : nat)
    (evs : list mem_event) :
  Forall (fun chain => (length chain <= 1)%nat) tbl ->
  delete_leaked tbl n i = Ok evs ->
  evs = map (fun b => FreeBucket (tombstone b)) (concat (take n (drop i tbl))).
Proof.
  intros Hone. revert i evs. induction n as [|n IH]; intros i evs H; simpl in H.
  - injection H as <-. reflexivity.
  - destruct (slot tbl (Z.of_nat i)) as [chain| |] eqn:Hs; simpl in H; try discriminate.
    apply slot_Ok in Hs. rewrite Nat2Z.id in Hs.
    destruct chain as [|b rest]; [discriminate|].
    destruct (delete_leaked tbl n (S i)) as [evs'| |] eqn:Hd; simpl in H; try discriminate.
    injection H as <-. rewrite (IH _ _ Hd), (drop_S _ _ _ Hs). simpl.
    rewrite Forall_forall in Hone.
    assert (length (b :: rest) <= 1)%nat as Hl.
    { apply Hone. apply list_elem_of_lookup. eauto. }
    destruct rest; [reflexivity | simpl in Hl; lia].
Qed.

(** X19. When HASH_Delete completes on a valid table, no chain of the table
    held more than one bucket, and what it released is every entry of the
    table, tombstoned, once each and in slot order, then the slot array,
    then the table. *)
Theorem delete_completes_only_unchained (t : HASH_TABLE) (evs : list mem_event) :
  valid t -> HASH_Delete t = Ok evs ->
  Forall (fun chain => (length chain <= 1)%nat) (ppBucketTable t) /\
  evs = map (fun b => FreeBucket (tombstone b)) (entries t)
        ++ [FreeBucketTable; FreeHashTable].
Proof.
  intros Hv. unfold HASH_Delete.
  change (uCount (_inc_ref t)) with (uCount t).
  change (ppBucketTable (_inc_ref t)) with (ppBucketTable t).
  pose proof (valid_count t Hv) as Hcnt. unfold entries in *.
  destruct (Z.eqb_spec (uCount t) 0) as [H0|Hnz]; simpl.
  - intros [= <-].
    destruct (heads_count (ppBucketTable t) 0) as [_ Hone]; [intros j Hj; lia|].
    split; [apply Hone; lia|].
    destruct (concat (ppBucketTable t)); [reflexivity | simpl in Hcnt; lia].
  - destruct (delete_leaked (ppBucketTable t) (Z.to_nat (uCount t)) 0) as [evs'| |] eqn:Hd;
      simpl; try discriminate.
    intros [= <-]. set (n := Z.to_nat (uCount t)) in *.
    assert (length (concat (ppBucketTable t)) = n) as Hn by (unfold n; lia).
    pose proof (delete_leaked_Ok _ _ _ _ Hd) as [_ Hall].
    assert (forall j, (j < n)%nat -> exists b rest, ppBucketTable t !! j = Some (b :: rest))
      as Hheads.
    { intros j Hj. destruct (Hall j Hj) as (b & rest & Hl & _). eauto. }
    destruct (heads_count (ppBucketTable t) n Hheads) as [_ Hone].
    specialize (Hone Hn). split; [exact Hone|].
    rewrite (delete_leaked_singletons _ _ _ _ Hone Hd), drop_0. f_equal. f_equal.
    destruct (heads_count (take n (ppBucketTable t)) n) as [Hge _].
    { intros j Hj. destruct (Hheads j Hj) as (b & rest & Hl). exists b, rest.
      rewrite lookup_take_lt by exact Hj. exact Hl. }
    rewrite <- (take_drop n (ppBucketTable t)) in Hn at 1.
    rewrite concat_app, length_app in Hn.
    assert (concat (drop n (ppBucketTable t)) = []) as Hnil.
    { apply length_zero_iff_nil. lia. }
    rewrite <- (take_drop n (ppBucketTable t)) at 2. rewrite concat_app, Hnil, app_nil_r.
    reflexivity.
Qed.

Lemma delete_completes_only_unchained_witness :
  Forall (fun chain => (length chain <= 1)%nat) (ppBucketTable table4_nine) /\
  [FreeBucket (mkBUCKET BUCKET_FREE 1 [9]); FreeBucketTable; FreeHashTable]
  = map (fun b => FreeBucket (tombstone b)) (entries table4_nine)
    ++ [FreeBucketTable; FreeHashTable].
Proof.
  apply (delete_completes_only_unchained table4_nine).
  - apply validb_sound. reflexivity.
  - reflexivity.
Defined.

(** ** Distinct keys and the count *)




(** ** The dump *)

Lemma dump_chain_length (chain : list BUCKET) (u : Z) :
  0 <= u -> u + Z.of_nat (length chain) < 2 ^ 32 ->
  dump_chain chain u = u + Z.of_nat (length chain).
Proof.
  revert u. induction chain as [|b chain IH]; intros u H0 H; simpl in *; [lia|].
  rewrite wrap32_small by lia. rewrite IH by lia. lia.
Qed.

Lemma chain_length_le (tbl : list (list BUCKET)) (chain : list BUCKET) :
  chain ∈ tbl -> (length chain <= length (concat tbl))%nat.
Proof.
  intros Hc. apply list_elem_of_split in Hc as (l1 & l2 & ->).
  rewrite concat_app, length_app. simpl. rewrite length_app. lia.
Qed.

Lemma dump_slots_spec (tbl : list (list BUCKET)) (n i : nat) (M E : Z) :
  (i + n <= length tbl)%nat -> 0 <= M -> 0 <= E -> E + Z.of_nat n < 2 ^ 32 ->
  Forall (fun c => Z.of_nat (length c) < 2 ^ 32) tbl ->
  exists M' E', dump_slots tbl n i M E = Ok (M', E') /\
    E' = E + Z.of_nat (length (filter (fun c => length c = 0%nat) (take n (drop i tbl)))) /\
    M <= M' /\
    Forall (fun c => Z.of_nat (length c) <= M') (take n (drop i tbl)) /\
    (M' = M \/ Exists (fun c => Z.of_nat (length c) = M') (take n (drop i tbl))) /\
    Z.of_nat (length (concat (take n (drop i tbl))))
    <= (Z.of_nat n
        - Z.of_nat (length (filter (fun c => length c = 0%nat) (take n (drop i tbl))))) * M'.
Proof.
  intros Hlen HM HE Hn Hall. revert i M E Hlen HM HE Hn.
  induction n as [|n IH]; intros i M E Hlen HM HE Hn.
  - exists M, E. simpl. repeat split; auto; try lia. 
  - simpl dump_slots.
    destruct (slot_in_range tbl (Z.of_nat i)) as (c & Hc & ->); [lia|].
    rewrite Nat2Z.id in Hc. simpl bind.
    assert (Z.of_nat (length c) < 2 ^ 32) as Hc32.
    { rewrite Forall_forall in Hall. apply Hall. apply list_elem_of_lookup. eauto. }
    rewrite dump_chain_length by lia. rewrite Z.add_0_l, PRIVATE_MAX_max.
    rewrite (drop_S _ _ _ Hc). simpl take.
    set (seg := take n (drop (S i) tbl)).
    set (E1 := match c with [] => wrap32 (E + 1) | _ :: _ => E end).
    assert (E1 = E + (if decide (length c = 0%nat) then 1 else 0)) as HE1.
    { unfold E1. destruct c; simpl.
      - rewrite wrap32_small by lia. reflexivity.
      - lia. }
    destruct (IH (S i) (Z.max M (Z.of_nat (length c))) E1) as (M' & E' & -> & HE' & HM' & Hf & Hex & Hp).
    { lia. } { lia. } { rewrite HE1. destruct (decide (length c = 0%nat)); lia. }
    { rewrite HE1. destruct (decide (length c = 0%nat)); lia. }
    fold seg in HE', Hf, Hex, Hp.
    exists M', E'. split; [reflexivity|].
    rewrite filter_cons. simpl concat. rewrite length_app.
    destruct (decide (length c = 0%nat)) as [Hz|Hnz]; simpl length.
    + split; [lia|]. split; [lia|]. split; [constructor; [lia | exact Hf]|]. split.
      * destruct Hex as [->|Hex]; [left; lia | right; right; exact Hex].
      * lia.
    + split; [lia|]. split; [lia|]. split; [constructor; [lia | exact Hf]|]. split.
      * destruct Hex as [->|Hex]; [|right; right; exact Hex].
        destruct (Z.max_spec M (Z.of_nat (length c))) as [[_ ->]|[_ ->]];
          [right; left; reflexivity | left; reflexivity].
      * nia.
Qed.

(** X21. On a valid table HASH_Dump traces the minimum, the size and the
    count, then the number of empty slots and the length of the longest
    chain: no chain is longer than that, some chain has that length unless
    the table is empty, and the count is at most the number of used slots
    times that length. *)
Theorem dump_reports_occupancy (t : HASH_TABLE) :
  valid t ->
  exists uEmptyCount uMaxLength,
    HASH_Dump t = Ok [uMinimumSize t; uSize t; uCount t; uEmptyCount; uMaxLength] /\
    uEmptyCount
    = Z.of_nat (length (filter (fun c => length c = 0%nat) (ppBucketTable t))) /\
    Forall (fun c => Z.of_nat (length c) <= uMaxLength) (ppBucketTable t) /\
    (uCount t <> 0 -> Exists (fun c => Z.of_nat (length c) = uMaxLength) (ppBucketTable t)) /\
    uCount t <= (uSize t - uEmptyCount) * uMaxLength.
Proof.
  intros Hv. pose proof (valid_size t Hv) as Hsz. pose proof (valid_len t Hv) as Hlen.
  pose proof (valid_count t Hv) as Hcnt. pose proof (valid_count32 t Hv) as Hc32.
  destruct (dump_slots_spec (ppBucketTable t) (Z.to_nat (uSize t)) 0 0 0)
    as (M & E & Hd & HE & HM & Hf & Hex & Hp); try lia.
  { apply Forall_forall. intros c Hc. apply chain_length_le in Hc. unfold entries in Hcnt. lia. }
  rewrite drop_0, <- Hlen, firstn_all in HE, Hf, Hex, Hp.
  exists E, M. unfold HASH_Dump. rewrite <- Hlen at 1. rewrite Hlen at 1. rewrite Hd. simpl.
  split; [reflexivity|]. split; [lia|]. split; [exact Hf|]. split.
  - intros Hnz. destruct Hex as [->|Hex]; [|exact Hex]. exfalso.
    unfold entries in Hcnt.
    assert (concat (ppBucketTable t) = []) as Hnil.
    { clear -Hf. induction (ppBucketTable t) as [|c l IH]; [reflexivity|].
      apply Forall_cons in Hf as [Hc Hl]. simpl. rewrite (IH Hl).
      destruct c; [reflexivity | simpl in Hc; lia]. }
    rewrite Hnil in Hcnt. simpl in Hcnt. lia.
  - fold (entries t) in Hp. rewrite Hcnt, HE, Z.add_0_l.
    replace (uSize t) with (Z.of_nat (length (ppBucketTable t))) by lia. exact Hp.
Qed.

Lemma dump_reports_occupancy_witness :
  exists uEmptyCount uMaxLength,
    HASH_Dump table4_three
    = Ok [uMinimumSize table4_three; uSize table4_three; uCount table4_three;
          uEmptyCount; uMaxLength] /\
    uEmptyCount
    = Z.of_nat (length (filter (fun c => length c = 0%nat) (ppBucketTable table4_three))) /\
    Forall (fun c => Z.of_nat (length c) <= uMaxLength) (ppBucketTable table4_three) /\
    (uCount table4_three <> 0 ->
     Exists (fun c => Z.of_nat (length c) = uMaxLength) (ppBucketTable table4_three)) /\
    uCount table4_three <= (uSize table4_three - uEmptyCount) * uMaxLength.
Proof.
  apply (dump_reports_occupancy table4_three). exact table4_three_valid.
Defined.

Example dump_table4_three : HASH_Dump table4_three = Ok [4; 8; 3; 6; 2].
Proof. reflexivity. Qed.

(** ** The one-word interface and finite maps *)

Lemma word_compare (t : HASH_TABLE) (a b : Z) :
  word_table t -> KEY_COMPARE t [a] [b] = (a =? b).
Proof.
  intros (_ & Hc & Hk). unfold KEY_COMPARE. rewrite Hc, Hk.
  unfold HASH_Key_Comp_Default. change (uKeyLen sizeof_uintptr_t) with 1%nat. simpl.
  destruct (a =? b); reflexivity.
Qed.

Lemma word_key_sized (t : HASH_TABLE) (key : Z) : word_table t -> key_sized t [key].
Proof. intros (_ & _ & Hk). unfold key_sized. rewrite Hk. reflexivity. Qed.

Lemma word_new_bucket (t : HASH_TABLE) (key val : Z) :
  word_table t -> new_bucket t [key] val = bucket key val.
Proof.
  intros Hw. unfold new_bucket, bucket.
  rewrite (OSCachedMemCopy_sized t [key] (word_key_sized t key Hw)). reflexivity.
Qed.

Lemma word_table_strategy (t t' : HASH_TABLE) :
  same_strategy t t' -> word_table t -> word_table t'.
Proof. intros (Hk & Hh & Hc) (H1 & H2 & H3). repeat split; congruence. Qed.

Lemma filter_key_notin (l : list (Z * Z)) (key : Z) :
  key ∉ l.*1 -> filter (fun kv => fst kv = key) l = [].
Proof.
  induction l as [|[a x] l IH]; intros Hn; [reflexivity|].
  rewrite fmap_cons, not_elem_of_cons in Hn. destruct Hn as [Hne Hn].
  rewrite filter_cons_False by (simpl; intros Heq; apply Hne; symmetry; exact Heq).
  apply IH. exact Hn.
Qed.

Lemma filter_key_in (l : list (Z * Z)) (key val : Z) :
  NoDup l.*1 -> (key, val) ∈ l -> filter (fun kv => fst kv = key) l = [(key, val)].
Proof.
  induction l as [|[a x] l IH]; intros Hnd Hin.
  - apply elem_of_nil in Hin. contradiction.
  - rewrite fmap_cons in Hnd. apply NoDup_cons in Hnd as [Ha Hnd].
    apply elem_of_cons in Hin as [Heq|Hin].
    + injection Heq as <- <-. rewrite filter_cons_True by reflexivity.
      rewrite filter_key_notin by exact Ha. reflexivity.
    + assert (a <> key) as Hne.
      { intros ->. apply Ha. apply list_elem_of_fmap. exists (key, val). auto. }
      rewrite filter_cons_False by (simpl; exact Hne). apply IH; assumption.
Qed.

Lemma word_matching_list (t : HASH_TABLE) (key : Z) (l : list (Z * Z)) :
  word_table t ->
  filter (fun b => KEY_COMPARE t (k b) [key] = true)
    ((fun kv => bucket (fst kv) (snd kv)) <$> l)
  = (fun kv => bucket (fst kv) (snd kv)) <$> filter (fun kv => fst kv = key) l.
Proof.
  intros Hw. induction l as [|[a x] l IH]; [reflexivity|].
  rewrite fmap_cons, matching_cons, IH. simpl k. rewrite (word_compare t a key Hw).
  destruct (Z.eqb_spec a key) as [->|Hne].
  - rewrite filter_cons_True by reflexivity. reflexivity.
  - rewrite filter_cons_False by (simpl; exact Hne). reflexivity.
Qed.

Lemma represents_matching (t : HASH_TABLE) (m : gmap Z Z) (key : Z) :
  represents t m ->
  matching t [key] ≡ₚ match m !! key with Some val => [bucket key val] | None => [] end.
Proof.
  intros (Hv & Hw & He). unfold matching. rewrite He. unfold model_buckets.
  rewrite (word_matching_list t key _ Hw).
  destruct (m !! key) as [val|] eqn:Hm.
  - rewrite (filter_key_in _ key val); [reflexivity | apply NoDup_fst_map_to_list |].
    apply elem_of_map_to_list. exact Hm.
  - rewrite filter_key_notin; [reflexivity|].
    intros Hin. apply list_elem_of_fmap in Hin as ([a x] & Ha & Hin). simpl in Ha. subst a.
    apply elem_of_map_to_list in Hin. congruence.
Qed.

Lemma represents_retrieve (t : HASH_TABLE) (m : gmap Z Z) (key : Z) :
  represents t m -> HASH_Retrieve t key = Ok (t, default 0 (m !! key)).
Proof.
  intros Hr. pose proof (represents_matching t m key Hr) as Hm.
  destruct Hr as (Hv & Hw & He). unfold HASH_Retrieve.
  destruct (m !! key) as [val|]; simpl.
  - change val with (v (bucket key val)).
    apply Retrieve_matching; [apply valid_wf; exact Hv | exact Hm | reflexivity].
  - apply Permutation_nil_r in Hm.
    apply Retrieve_absent; [apply valid_wf; exact Hv | exact Hm].
Qed.

Lemma represents_insert (allocTable : bool) (t : HASH_TABLE) (m : gmap Z Z) (key val : Z) :
  represents t m -> m !! key = None -> uSize t < 2 ^ 31 -> uCount t + 1 < 2 ^ 31 ->
  exists t', HASH_Insert true allocTable t key val = Ok (t', true) /\
    represents t' (<[key := val]> m) /\ uMinimumSize t' = uMinimumSize t /\
    uCount t' = uCount t + 1 /\
    (uSize t' = uSize t \/ (uSize t' = 2 * uSize t /\ uSize t < 2 * (uCount t + 1))).
Proof.
  intros (Hv & Hw & He) Hnone Hs Hc. unfold HASH_Insert.
  destruct (Insert_ok allocTable t [key] val Hv) as [[t' ok] Hins]; [lia|].
  pose proof (Insert_valid _ _ _ _ _ Hv Hs ltac:(lia) Hins) as Hv'. simpl in Hv'.
  destruct (Insert_inv _ _ _ _ _ (valid_len t Hv) Hins) as [Hok Hi]. simpl in Hok, Hi.
  subst ok. exists t'. split; [exact Hins|].
  pose proof (valid_count t Hv) as Hcnt. pose proof (valid_size t Hv) as Hsz.
  split; [|split; [exact (ins_min _ _ _ _ Hi)|split]].
  - split; [exact Hv'|]. split; [exact (word_table_strategy _ _ (ins_strategy _ _ _ _ Hi) Hw)|].
    rewrite (ins_entries _ _ _ _ Hi), (word_new_bucket t key val Hw), He.
    unfold model_buckets. rewrite (map_to_list_insert m key val Hnone). reflexivity.
  - rewrite (ins_count _ _ _ _ Hi). apply wrap32_small. lia.
  - rewrite (ins_size _ _ _ _ Hi). destruct (grows t) eqn:Hg; simpl.
    + destruct allocTable; [right | left; reflexivity].
      rewrite shiftl_1, wrap32_small by lia. split; [reflexivity|].
      apply grows_spec in Hg; lia.
    + left. reflexivity.
Qed.

Lemma represents_remove (allocTable : bool) (t : HASH_TABLE) (m : gmap Z Z) (key : Z) :
  represents t m ->
  exists t', HASH_Remove allocTable t key = Ok (t', default 0 (m !! key)) /\
    represents t' (delete key m) /\ uMinimumSize t' = uMinimumSize t /\
    uCount t' <= uCount t /\ uSize t' <= uSize t.
Proof.
  intros Hr. pose proof (represents_matching t m key Hr) as Hm.
  destruct Hr as (Hv & Hw & He). unfold HASH_Remove.
  destruct (m !! key) as [val|] eqn:Hlook; simpl.
  - assert (finds t [key] (bucket key val)) as Hf.
    { apply finds_matching; [apply valid_wf; exact Hv | exact Hm | reflexivity]. }
    destruct (finds_removed allocTable t [key] _ Hv Hf) as (t' & Hrem & Hrm & Hv' & _ & _).
    exists t'. split; [exact Hrem|].
    pose proof (Permutation_length (rem_entries _ _ _ _ Hrm)) as Hl. simpl in Hl.
    pose proof (valid_min t Hv) as Hmin.
    split; [|split; [exact (rem_min _ _ _ _ Hrm)|split]].
    + split; [exact Hv'|].
      split; [exact (word_table_strategy _ _ (rem_strategy _ _ _ _ Hrm) Hw)|].
      apply (Permutation_cons_inv (a := bucket key val)).
      rewrite <- (rem_entries _ _ _ _ Hrm), He. unfold model_buckets.
      rewrite <- (map_to_list_delete m key val Hlook). reflexivity.
    + rewrite (valid_count t' Hv'), (valid_count t Hv). lia.
    + rewrite (rem_size _ _ _ _ Hrm). destruct (shrinks t && allocTable); [|lia].
      rewrite PRIVATE_MAX_max, shiftr_1.
      assert (uSize t / 2 <= uSize t) by (apply Z.div_le_upper_bound; lia). lia.
  - apply Permutation_nil_r in Hm. exists t.
    split; [apply Remove_absent; assumption|].
    rewrite (delete_id m key Hlook).
    split; [split; [exact Hv | split; [exact Hw | exact He]]|].
    split; [reflexivity|]. lia.
Qed.

Lemma word_run_represents (ops : list word_op) :
  forall (t : HASH_TABLE) (m m' : gmap Z Z) (I : Z),
    represents t m -> uMinimumSize t < 2 ^ 31 ->
    uSize t <= Z.max (uMinimumSize t) (4 * I) -> uCount t <= I ->
    4 * (I + Z.of_nat (length ops)) < 2 ^ 31 ->
    word_model ops m = Some m' ->
    exists t', word_run t ops = Ok t' /\ represents t' m'.
Proof.
  induction ops as [|o ops IH]; intros t m m' I Hr Hmin Hsz Hcnt Hbound Hmodel.
  - simpl in Hmodel. injection Hmodel as <-. exists t. auto.
  - assert (0 <= uCount t) as H0.
    { destruct Hr as (Hv & _). rewrite (valid_count t Hv). lia. }
    simpl length in Hbound. destruct o as [at_ key val|at_ key]; simpl in Hmodel |- *.
    + destruct (m !! key) eqn:Hlook; [discriminate|].
      destruct (represents_insert at_ t m key val Hr Hlook) as (t1 & -> & Hr1 & Hm1 & Hc1 & Hs1);
        [lia | lia |].
      simpl. apply (IH t1 (<[key := val]> m) m' (I + 1)); auto; lia.
    + destruct (represents_remove at_ t m key Hr) as (t1 & -> & Hr1 & Hm1 & Hc1 & Hs1).
      simpl. apply (IH t1 (delete key m) m' I); auto; lia.
Qed.

(** X22. A table of HASH_Create is a finite map: for every sequence of
    HASH_Insert and HASH_Remove calls (fewer than 2^29 of them, on a table
    created with fewer than 2^31 slots) in which no key is inserted while
    the table holds it, whatever the resize allocations do, all calls
    return, the table stays valid, its count is the number of keys of the
    map the calls describe, and HASH_Retrieve of any key returns the value
    the map binds to it, or the sentinel 0 when the map has none. *)
Theorem word_tables_are_maps (uInitialLen : Z) (t0 : HASH_TABLE) (ops : list word_op)
    (m : gmap Z Z) :
  HASH_Create true true uInitialLen = Some t0 ->
  0 <= uInitialLen < 2 ^ 31 ->
  4 * Z.of_nat (length ops) < 2 ^ 31 ->
  word_model ops ∅ = Some m ->
  exists t, word_run t0 ops = Ok t /\ valid t /\
    uCount t = Z.of_nat (size m) /\
    forall key, HASH_Retrieve t key = Ok (t, default 0 (m !! key)).
Proof.
  intros Hc Hlen Hops Hmodel.
  assert (represents t0 ∅ /\ uMinimumSize t0 = uInitialLen /\ uSize t0 = uInitialLen /\
          uCount t0 = 0) as (Hr0 & Hm0 & Hs0 & Hc0).
  { assert (valid t0) as Hv0.
    { apply (Create_valid uInitialLen sizeof_uintptr_t (Some HASH_Func_Default)
               (Some HASH_Key_Comp_Default)); [exact Hc | lia]. }
    unfold HASH_Create, HASH_Create_Extended in Hc.
    destruct ((uInitialLen =? 0) || (sizeof_uintptr_t =? 0)); [discriminate|].
    simpl in Hc. injection Hc as <-.
    split; [|auto]. split; [exact Hv0|]. split; [repeat split|].
    unfold entries, model_buckets. simpl.
    rewrite concat_replicate_nil, map_to_list_empty. reflexivity. }
  destruct (word_run_represents ops t0 ∅ m 0 Hr0) as (t & Hrun & Hr); try lia; [exact Hmodel|].
  exists t. split; [exact Hrun|]. split; [exact (proj1 Hr)|]. split.
  - destruct Hr as (Hv & _ & He). rewrite (valid_count t Hv), He.
    unfold model_buckets. rewrite length_fmap, length_map_to_list. reflexivity.
  - intros key. apply represents_retrieve. exact Hr.
Qed.

Lemma word_tables_are_maps_witness :
  exists t, word_run table4 [WInsert true 1 10; WInsert true 2 5; WInsert false 3 7;
                             WRemove true 2; WInsert true 2 6] = Ok t /\
    valid t /\
    uCount t = Z.of_nat (size (<[2 := 6]> (delete 2 (<[3 := 7]> (<[2 := 5]> (<[1 := 10]> ∅))))
                               : gmap Z Z)) /\
    forall key,
      HASH_Retrieve t key
      = Ok (t, default 0
                 ((<[2 := 6]> (delete 2 (<[3 := 7]> (<[2 := 5]> (<[1 := 10]> ∅))))
                   : gmap Z Z) !! key)).
Proof.
  apply (word_tables_are_maps 4 table4
           [WInsert true 1 10; WInsert true 2 5; WInsert false 3 7;
            WRemove true 2; WInsert true 2 6]).
  - reflexivity.
  - split; [discriminate | reflexivity].
  - reflexivity.
  - reflexivity.
Defined.

Lemma statuses_all_ok {St : Type} (cb : HASH_pfnCallback St) (l : list BUCKET) (s : St) :
  (forall s' key val, snd (cb s' key val) = PVRSRV_OK) ->
  Forall (eq PVRSRV_OK) (statuses cb l s).
Proof.
  intros Hok. revert s. induction l as [|b l IH]; intros s; simpl; [constructor|].
  pose proof (Hok s (hd 0 (k b)) (v b)) as H.
  destruct (cb s (hd 0 (k b)) (v b)) as [s1 e]. simpl in H. subst e.
  constructor; [reflexivity | apply IH].
Qed.

Lemma visit_args_buckets (l : list (Z * Z)) :
  map visit_args ((fun kv => bucket (fst kv) (snd kv)) <$> l) = l.
Proof.
  induction l as [|[a x] l IH]; [reflexivity|].
  rewrite fmap_cons. simpl. rewrite IH. reflexivity.
Qed.

(** X23. Iteration is complete: after a sequence of HASH_Insert and
    HASH_Remove calls as in X22, HASH_Iterate with a visitor that never
    aborts returns success, leaves the table as it is, and has shown the
    visitor exactly the key and value pairs of the map the calls describe,
    each once, in some order. *)
Theorem iterate_visits_the_map (St : Type) (cb : HASH_pfnCallback St) (s : St)
    (uInitialLen : Z) (t0 : HASH_TABLE) (ops : list word_op) (m : gmap Z Z) :
  HASH_Create true true uInitialLen = Some t0 ->
  0 <= uInitialLen < 2 ^ 31 ->
  4 * Z.of_nat (length ops) < 2 ^ 31 ->
  word_model ops ∅ = Some m ->
  (forall s' key val, snd (cb s' key val) = PVRSRV_OK) ->
  exists t s' log, word_run t0 ops = Ok t /\
    HASH_Iterate t (logged cb) (s, []) = Ok (t, (s', log), PVRSRV_OK) /\
    log ≡ₚ map_to_list m.
Proof.
  intros Hc Hlen Hops Hmodel Hok.
  assert (represents t0 ∅ /\ uMinimumSize t0 = uInitialLen /\ uSize t0 = uInitialLen /\
          uCount t0 = 0) as (Hr0 & Hm0 & Hs0 & Hc0).
  { assert (valid t0) as Hv0.
    { apply (Create_valid uInitialLen sizeof_uintptr_t (Some HASH_Func_Default)
               (Some HASH_Key_Comp_Default)); [exact Hc | lia]. }
    unfold HASH_Create, HASH_Create_Extended in Hc.
    destruct ((uInitialLen =? 0) || (sizeof_uintptr_t =? 0)); [discriminate|].
    simpl in Hc. injection Hc as <-.
    split; [|auto]. split; [exact Hv0|]. split; [repeat split|].
    unfold entries, model_buckets. simpl.
    rewrite concat_replicate_nil, map_to_list_empty. reflexivity. }
  destruct (word_run_represents ops t0 ∅ m 0 Hr0) as (t & Hrun & Hv & _ & He);
    try lia; [exact Hmodel|].
  destruct (iterate_logged_ok cb (entries t) s [] (statuses_all_ok cb (entries t) s Hok))
    as [s' Hit].
  exists t, s', (map visit_args (entries t)). split; [exact Hrun|]. split.
  - rewrite (Iterate_flat (logged cb) t (s, []) Hv), Hit. reflexivity.
  - rewrite He. unfold model_buckets. rewrite visit_args_buckets. reflexivity.
Qed.

Lemma iterate_visits_the_map_witness :
  exists t s' log,
    word_run table4 [WInsert true 1 10; WInsert true 2 5; WRemove true 1] = Ok t /\
    HASH_Iterate t (logged count_visits) (0, []) = Ok (t, (s', log), PVRSRV_OK) /\
    log ≡ₚ map_to_list (delete 1 (<[2 := 5]> (<[1 := 10]> ∅)) : gmap Z Z).
Proof.
  apply (iterate_visits_the_map Z count_visits 0 4 table4
           [WInsert true 1 10; WInsert true 2 5; WRemove true 1]).
  - reflexivity.
  - split; [discriminate | reflexivity].
  - reflexivity.
  - reflexivity.
  - reflexivity.
Defined.
